(** * Verification of the chat-transcript parser and the API glue of
    tardelr/scripts.

    Sources embedded here:
    - [src/test_run/conversation_to_context_v2.py]: [HEADER], [split_sender_and_text],
      [parse_chat], [parse_to_context], [write_messages_to_csv], [main];
    - [src/send_context_to_claude.py]: [read_messages_from_csv], [call_anthropic],
      [call_gpt], [main].

    A Python [str] is a sequence of code points; it is modelled as [list N]. *)

From Stdlib Require Import Strings.String Strings.Ascii.
From stdpp Require Import base list gmap.

Open Scope N_scope.

(** ** Python strings *)

Abbreviation pystr := (list N).

(** ASCII literal -> Python string (one code point per character). *)
Definition s (x : string) : pystr :=
  map (fun a => N.of_nat (nat_of_ascii a)) (list_ascii_of_string x).

Definition LF : N := 10.
Definition CR : N := 13.

(** [str.isspace] of one code point, which is also what [\s] matches in a
    [str] pattern of [re] (Unicode 14, CPython 3.11). *)
Definition is_space (c : N) : bool :=
  ((9 <=? c) && (c <=? 13)) || ((28 <=? c) && (c <=? 32)) ||
  (c =? 133) || (c =? 160) || (c =? 5760) ||
  ((8192 <=? c) && (c <=? 8202)) || (c =? 8232) || (c =? 8233) ||
  (c =? 8239) || (c =? 8287) || (c =? 12288).

(** First code points of the 66 blocks of ten decimal digits that [\d]
    matches in a [str] pattern (Unicode category Nd, Unicode 14). *)
Definition digit_blocks : list N :=
  [48; 1632; 1776; 1984; 2406; 2534; 2662; 2790; 2918; 3046; 3174; 3302;
   3430; 3558; 3664; 3792; 3872; 4160; 4240; 6112; 6160; 6470; 6608; 6784;
   6800; 6992; 7088; 7232; 7248; 42528; 43216; 43264; 43472; 43504; 43600;
   44016; 65296; 66720; 68912; 69734; 69872; 69942; 70096; 70384; 70736;
   70864; 71248; 71360; 71472; 71904; 72016; 72784; 73040; 73120; 92768;
   92864; 93008; 120782; 120792; 120802; 120812; 120822; 123200; 123632; 125264; 130032].

Definition is_digit (c : N) : bool :=
  existsb (fun b => (b <=? c) && (c <? b + 10)) digit_blocks.

Fixpoint take_while (p : N -> bool) (l : pystr) : pystr :=
  match l with
  | [] => []
  | c :: t => if p c then c :: take_while p t else []
  end.

Fixpoint drop_while (p : N -> bool) (l : pystr) : pystr :=
  match l with
  | [] => []
  | c :: t => if p c then drop_while p t else l
  end.

(** [str.lstrip()], [str.rstrip()], [str.strip()]. *)
Definition lstrip (x : pystr) : pystr := drop_while is_space x.
Definition rstrip (x : pystr) : pystr := rev (drop_while is_space (rev x)).
Definition strip (x : pystr) : pystr := rstrip (lstrip x).

(** [str.rstrip("\n")]. *)
Definition rstrip_nl (x : pystr) : pystr := rev (drop_while (fun c => c =? LF) (rev x)).

(** [str.replace("\r\n", "\n")]: leftmost, non-overlapping occurrences. *)
Fixpoint replace_crlf (x : pystr) : pystr :=
  match x with
  | [] => []
  | c :: t =>
      if c =? CR then
        match t with
        | d :: t' => if d =? LF then LF :: replace_crlf t' else c :: replace_crlf t
        | [] => [c]
        end
      else c :: replace_crlf t
  end.

(** [str.replace("\r", "\n")]. *)
Definition replace_cr (x : pystr) : pystr := map (fun c => if c =? CR then LF else c) x.

Fixpoint starts_with (p x : pystr) : bool :=
  match p, x with
  | [], _ => true
  | a :: p', b :: x' => (a =? b) && starts_with p' x'
  | _ :: _, [] => false
  end.

(** [x.split(sep, 1)] when [sep] occurs in [x] ([Some (before, after)], at the
    first occurrence), [None] when [sep in x] is false. *)
Fixpoint split_once (sep x : pystr) : option (pystr * pystr) :=
  if starts_with sep x then Some ([], drop (length sep) x)
  else match x with
       | [] => None
       | c :: t => match split_once sep t with
                   | Some (a, b) => Some (c :: a, b)
                   | None => None
                   end
       end.

(** [sub in x] *)
Definition str_contains (sub x : pystr) : bool :=
  match split_once sub x with Some _ => true | None => false end.

(** Python slice [text[a:b]] for [0 <= a, b]. *)
Definition slice (text : pystr) (a b : nat) : pystr := take ((b - a)%nat) (drop a text).

(** [sep.join(l)] *)
Fixpoint join (sep : pystr) (l : list pystr) : pystr :=
  match l with
  | [] => []
  | [x] => x
  | x :: l' => x ++ sep ++ join sep l'
  end.

(** ** The [HEADER] regular expression

    [^(\d{2}/\d{2}/\d{4})\s+(\d{2}:\d{2})\s+-\s( .* )] with [re.MULTILINE].
    Matching at a position where [^] holds is deterministic: the first [\s+]
    is followed by [\d] and the second by [-], neither of which is white
    space, so the greedy repetitions never give back a character; [( .* )] is
    last and takes every code point up to the next [\n]. *)

Definition not_lf (c : N) : bool := negb (c =? LF).

(** A match at the start of [x]: (group 1, group 2, group 3, match length). *)
Definition match_header (x : pystr) : option (pystr * pystr * pystr * nat) :=
  match x with
  | d1 :: d2 :: sl1 :: d3 :: d4 :: sl2 :: y1 :: y2 :: y3 :: y4 :: x1 =>
      if forallb is_digit [d1; d2; d3; d4; y1; y2; y3; y4] && (sl1 =? 47) && (sl2 =? 47)
      then
        let w1 := take_while is_space x1 in
        match drop_while is_space x1 with
        | h1 :: h2 :: col :: n1 :: n2 :: x3 =>
            if negb (length w1 =? 0)%nat && forallb is_digit [h1; h2; n1; n2] && (col =? 58)
            then
              let w2 := take_while is_space x3 in
              match drop_while is_space x3 with
              | dash :: sp :: x5 =>
                  if negb (length w2 =? 0)%nat && (dash =? 45) && is_space sp then
                    let rest := take_while not_lf x5 in
                    Some ([d1; d2; sl1; d3; d4; sl2; y1; y2; y3; y4],
                          [h1; h2; col; n1; n2], rest,
                          (10 + length w1 + 5 + length w2 + 2 + length rest)%nat)
                  else None
              | _ => None
              end
            else None
        | _ => None
        end
      else None
  | _ => None
  end.

(** [^] under [re.MULTILINE]: start of the text or just after a [\n]. *)
Definition at_bol (text : pystr) (pos : nat) : bool :=
  match pos with
  | O => true
  | S p => match text !! p with Some c => c =? LF | None => false end
  end.

Record hmatch := {
  m_start : nat;
  m_end : nat;
  m_date : pystr;
  m_time : pystr;
  m_rest : pystr
}.

(** [HEADER.finditer(text)] from position [pos]: try a match at every position;
    after a match, resume the search at its end. *)
Fixpoint scan (fuel : nat) (text : pystr) (pos : nat) : list hmatch :=
  match fuel with
  | O => []
  | S fuel' =>
      match (if at_bol text pos then match_header (drop pos text) else None) with
      | Some (d, t, r, len) =>
          {| m_start := pos; m_end := pos + len; m_date := d; m_time := t; m_rest := r |}
            :: scan fuel' text (pos + len)
      | None => scan fuel' text (S pos)
      end
  end.

Definition finditer (text : pystr) : list hmatch := scan (S (length text)) text 0.

(** ** [split_sender_and_text] and [parse_chat] *)

Definition COLON_SP : pystr := [58; 32].

Definition split_sender_and_text (rest : pystr) : option pystr * pystr :=
  match split_once COLON_SP rest with
  | Some (sender, msg) =>
      if (bool_decide (strip sender = [])) && (bool_decide (strip msg = []))
      then (None, [])
      else (Some (strip sender), msg)
  | None => (None, rest)
  end.

Record parsed := {
  date : pystr;
  time : pystr;
  sender : option pystr;
  message : pystr
}.

(** [matches[i + 1].start() if i + 1 < len(matches) else len(text)] *)
Definition next_start (text : pystr) (later : list hmatch) : nat :=
  match later with
  | m2 :: _ => m_start m2
  | [] => length text
  end.

(** Lines 81-97 of [parse_chat]: build [full] from [rest] and [body],
    normalise line endings, trim trailing newlines, split and strip. *)
Definition decompose (rest body : pystr) : option pystr * pystr :=
  let full := if starts_with [LF] body then rest ++ body
              else if bool_decide (body = []) then rest else rest ++ [LF] ++ body in
  let full := replace_cr (replace_crlf full) in
  let full := rstrip_nl full in
  let '(snd, msg) := split_sender_and_text full in
  (snd, strip msg).

Fixpoint parse_loop (text : pystr) (ms : list hmatch) : list parsed :=
  match ms with
  | [] => []
  | m :: later =>
      let body := slice text (m_end m) (next_start text later) in
      let '(snd, msg) := decompose (m_rest m) body in
      {| date := m_date m; time := m_time m; sender := snd; message := msg |}
        :: parse_loop text later
  end.

Definition parse_chat (text : pystr) : list parsed := parse_loop text (finditer text).

(** The span of text each header match owns: from the match's start to the
    next match's start (or the end of the text). *)
Fixpoint blocks (text : pystr) (ms : list hmatch) : list (nat * nat) :=
  match ms with
  | [] => []
  | m :: later => (m_start m, next_start text later) :: blocks text later
  end.

Definition block_spans (text : pystr) : list (nat * nat) := blocks text (finditer text).

Definition block_texts (text : pystr) : list pystr :=
  map (fun b => slice text b.1 b.2) (block_spans text).

Definition NL : pystr := [LF].

(** ** [parse_to_context] *)

Record context_rec := {
  role : pystr;
  content : pystr
}.

(** ['Mavi – Mosaic'], with an en dash (U+2013). *)
Definition MAVI_MOSAIC : pystr := s "Mavi " ++ [8211] ++ s " Mosaic".

Definition ASSISTANT_REFERENCE_DICT : gmap pystr pystr := {[ MAVI_MOSAIC := s "assistant" ]}.

(** [d.get(key, default)] for a dict with [str] keys; the key [None] is in
    no such dict. *)
Definition dict_get (d : gmap pystr pystr) (key : option pystr) (default : pystr) : pystr :=
  match key with
  | Some k => match d !! k with Some v => v | None => default end
  | None => default
  end.

Definition parse_to_context (messages : list parsed) : list context_rec :=
  map (fun m => {| role := dict_get ASSISTANT_REFERENCE_DICT (sender m) (s "user");
                   content := message m |}) messages.

(** ** The [csv] module

    CPython 3.11 [_csv.c] with the [excel] dialect: delimiter [,], the double
    quote as quotechar, [doublequote], [QUOTE_MINIMAL], no escapechar, [strict=False]. *)

Definition COMMA : N := 44.
Definition DQUOTE : N := 34.

(** [join_append_data] with [lineterminator="\n"]: a field is quoted when it
    holds the delimiter, the quotechar or a character of the line terminator
    (a [\r] is not one of them); the quotes inside it are doubled. *)
Definition csv_needs_quotes (x : pystr) : bool :=
  existsb (fun c => (c =? COMMA) || (c =? DQUOTE) || (c =? LF)) x.

Definition csv_quote_field (x : pystr) : pystr :=
  if csv_needs_quotes x
  then DQUOTE :: flat_map (fun c => if c =? DQUOTE then [DQUOTE; DQUOTE] else [c]) x ++ [DQUOTE]
  else x.

(** [writer.writerow(fields)]: the fields joined by the delimiter, then the
    line terminator; a record that is empty although it has a field (one empty
    field) is written as two quote characters. *)
Definition csv_writerow (fields : list pystr) : pystr :=
  let record := join [COMMA] (map csv_quote_field fields) in
  (if bool_decide (fields <> [] /\ record = []) then [DQUOTE; DQUOTE] else record) ++ [LF].

(** The reader ([parse_process_char]). *)
Inductive csv_state :=
  | START_RECORD | START_FIELD | IN_FIELD | IN_QUOTED_FIELD | QUOTE_IN_QUOTED_FIELD | EAT_CRNL.

(** A character of a line, or the end of the line ([EOL]). *)
Inductive csv_input := CChar (c : N) | EOL.

Record csv_parser := {
  ps_state : csv_state;
  ps_fields : list pystr;            (* the fields of the record so far *)
  ps_field : pystr                   (* the field being read *)
}.

(** [csv.field_size_limit()] *)
Definition FIELD_LIMIT : N := 131072.

Definition set_state (p : csv_parser) (st : csv_state) : csv_parser :=
  {| ps_state := st; ps_fields := ps_fields p; ps_field := ps_field p |}.

(** [parse_add_char], then the new state; [None]: [csv.Error] "field larger
    than field limit". *)
Definition add_char (p : csv_parser) (st : csv_state) (c : N) : option csv_parser :=
  if FIELD_LIMIT <=? N.of_nat (length (ps_field p)) then None
  else Some {| ps_state := st; ps_fields := ps_fields p; ps_field := ps_field p ++ [c] |}.

(** [parse_save_field], then the new state. *)
Definition save_field (p : csv_parser) (st : csv_state) : csv_parser :=
  {| ps_state := st; ps_fields := ps_fields p ++ [ps_field p]; ps_field := [] |}.

Definition is_crlf (c : N) : bool := (c =? LF) || (c =? CR).

(** The [START_FIELD] case for a character. *)
Definition start_field (p : csv_parser) (c : N) : option csv_parser :=
  if is_crlf c then Some (save_field p EAT_CRNL)
  else if c =? DQUOTE then Some (set_state p IN_QUOTED_FIELD)
  else if c =? COMMA then Some (save_field p START_FIELD)
  else add_char p IN_FIELD c.

(** [parse_process_char]; [None] when it raises [csv.Error]. *)
Definition process_char (p : csv_parser) (i : csv_input) : option csv_parser :=
  match ps_state p, i with
  | START_RECORD, EOL => Some p                        (* empty line *)
  | START_RECORD, CChar c => if is_crlf c then Some (set_state p EAT_CRNL) else start_field p c
  | START_FIELD, EOL => Some (save_field p START_RECORD)
  | START_FIELD, CChar c => start_field p c
  | IN_FIELD, EOL => Some (save_field p START_RECORD)
  | IN_FIELD, CChar c =>
      if is_crlf c then Some (save_field p EAT_CRNL)
      else if c =? COMMA then Some (save_field p START_FIELD)
      else add_char p IN_FIELD c
  | IN_QUOTED_FIELD, EOL => Some p
  | IN_QUOTED_FIELD, CChar c =>
      if c =? DQUOTE then Some (set_state p QUOTE_IN_QUOTED_FIELD) else add_char p IN_QUOTED_FIELD c
  | QUOTE_IN_QUOTED_FIELD, EOL => Some (save_field p START_RECORD)
  | QUOTE_IN_QUOTED_FIELD, CChar c =>
      if c =? DQUOTE then add_char p IN_QUOTED_FIELD c
      else if c =? COMMA then Some (save_field p START_FIELD)
      else if is_crlf c then Some (save_field p EAT_CRNL)
      else add_char p IN_FIELD c
  | EAT_CRNL, EOL => Some (set_state p START_RECORD)
  | EAT_CRNL, CChar c => if is_crlf c then Some p else None
  end.

Fixpoint csv_feed (inputs : list csv_input) (p : csv_parser) : option csv_parser :=
  match inputs with
  | [] => Some p
  | i :: rest => match process_char p i with None => None | Some q => csv_feed rest q end
  end.

(** [parse_reset] *)
Definition fresh_parser : csv_parser :=
  {| ps_state := START_RECORD; ps_fields := []; ps_field := [] |}.

(** The end of the input in [Reader.__next__]: a pending field, or an open
    quoted field, is saved and its record returned. *)
Definition csv_end (p : csv_parser) : list (list pystr) :=
  if bool_decide (ps_field p <> []) ||
     (match ps_state p with IN_QUOTED_FIELD => true | _ => false end)
  then [ps_fields p ++ [ps_field p]] else [].

(** [Reader.__next__] until the input ends, over the remaining [lines], with
    the record begun in [p]: each line's characters and then [EOL] are
    processed, and a record is returned when the state is back to
    [START_RECORD]. [None]: [csv.Error]. *)
Fixpoint csv_rows (lines : list pystr) (p : csv_parser) : option (list (list pystr)) :=
  match lines with
  | [] => Some (csv_end p)
  | l :: ls =>
      match csv_feed (map CChar l ++ [EOL]) p with
      | None => None
      | Some q =>
          match ps_state q with
          | START_RECORD => (fun rows => ps_fields q :: rows) <$> csv_rows ls fresh_parser
          | _ => csv_rows ls q
          end
      end
  end.

(** The lines of a file opened with [newline=''], each with its ending
    ([\n], [\r\n] or [\r]) kept; [cur] is the line read so far. *)
Fixpoint file_lines (cur text : pystr) : list pystr :=
  match text with
  | [] => match cur with [] => [] | _ => [cur] end
  | c :: t =>
      if c =? LF then (cur ++ [c]) :: file_lines [] t
      else if c =? CR then
        match t with
        | d :: t' => if d =? LF then (cur ++ [c; d]) :: file_lines [] t'
                     else (cur ++ [c]) :: file_lines [] t
        | [] => [cur ++ [c]]
        end
      else file_lines (cur ++ [c]) t
  end.

(** [list(csv.reader(f))] for a file holding [text]; [None]: [csv.Error]. *)
Definition csv_read (text : pystr) : option (list (list pystr)) :=
  csv_rows (file_lines [] text) fresh_parser.

(** ** [write_messages_to_csv]

    The text written to the file. [r.get("sender", "")] is [None] for a
    message without sender, which [csv.writer] writes as the empty string. *)

Definition csv_field (v : option pystr) : pystr :=
  match v with Some x => x | None => [] end.

Definition EXPECTED_MESSAGES : list pystr := [s "date"; s "time"; s "sender"; s "message"].

Definition message_row (r : parsed) : list pystr :=
  [date r; time r; csv_field (sender r); message r].

Definition write_messages_to_csv (rows : list parsed) : pystr :=
  csv_writerow EXPECTED_MESSAGES ++ flat_map (fun r => csv_writerow (message_row r)) rows.

(** Modelled from the spec: re-reading a messages table (the repository has
    no reader for it). Section 4.4: a fixed header, one row per record, the
    empty string for an absent field; section 8: sender "" is absent and vice
    versa. *)
Definition read_message_row (row : list pystr) : option parsed :=
  match row with
  | [d; t; snd; m] =>
      Some {| date := d; time := t;
              sender := if bool_decide (snd = []) then None else Some snd;
              message := m |}
  | _ => None
  end.

Fixpoint read_message_rows (rows : list (list pystr)) : option (list parsed) :=
  match rows with
  | [] => Some []
  | r :: rs =>
      match read_message_row r, read_message_rows rs with
      | Some p, Some ps => Some (p :: ps)
      | _, _ => None
      end
  end.

Definition read_messages_table (tbl : list (list pystr)) : option (list parsed) :=
  match tbl with
  | hdr :: rows => if bool_decide (hdr = EXPECTED_MESSAGES) then read_message_rows rows else None
  | [] => None
  end.

(** Re-reading a messages file: [csv.reader] over its text, then the rows as
    above. *)
Definition read_messages_csv (text : pystr) : option (list parsed) :=
  match csv_read text with
  | Some tbl => read_messages_table tbl
  | None => None
  end.

(** ** Exceptions and JSON values *)

(** The exceptions Python raises on a value of the wrong type or shape. *)
Inductive py_error := AttributeError | TypeError | KeyError.

Inductive exn :=
  | EnvironmentError (msg : pystr)
  | ValueError                        (* message text not modelled *)
  | OSError                           (* a file that cannot be opened, read or decoded *)
  | RequestException                  (* transport failure or timeout in [requests.post] *)
  | HTTPError (status : Z) (reason : pystr) (body : pystr)
                                      (* [raise_for_status]; the response stays attached *)
  | JSONDecodeError
  | RuntimeError (msg : pystr)
  | UnicodeDecodeError
  | PyError (e : py_error).

#[warnings="-register-all"]
Inductive json :=
  | JNull
  | JBool (b : bool)
  | JNum (repr : pystr)               (* a Python int or float, by its [repr] *)
  | JStr (x : pystr)
  | JArr (items : list json)
  | JObj (members : list (pystr * json)).

(** The dict [json.loads] builds from the members of an object: [d.get(k)]
    gives the value of the last member with key [k] ... *)
Fixpoint obj_get {A} (members : list (pystr * A)) (k : pystr) : option A :=
  match members with
  | [] => None
  | (k', v) :: rest =>
      match obj_get rest k with
      | Some v' => Some v'
      | None => if bool_decide (k' = k) then Some v else None
      end
  end.

(** ... and its keys come each once, in the order of their first occurrence. *)
Fixpoint dict_keys {A} (seen : list pystr) (m : list (pystr * A)) : list pystr :=
  match m with
  | [] => []
  | (k, _) :: rest =>
      if bool_decide (k ∈ seen) then dict_keys seen rest else k :: dict_keys (k :: seen) rest
  end.

(** [d.items()] *)
Definition dict_items {A} (m : list (pystr * A)) : list (pystr * A) :=
  omap (fun k => (fun v => (k, v)) <$> obj_get m k) (dict_keys [] m).

(** [float.__repr__] as [json.dumps] writes it: [nan], [inf] and [-inf]
    become [NaN], [Infinity] and [-Infinity]. *)
Definition json_number (repr : pystr) : pystr :=
  if bool_decide (repr = s "nan") then s "NaN"
  else if bool_decide (repr = s "inf") then s "Infinity"
  else if bool_decide (repr = s "-inf") then s "-Infinity"
  else repr.

Definition hex_digit (n : N) : N := if n <? 10 then 48 + n else 87 + n.

(** [json.encoder.ESCAPE_DCT] (the [ensure_ascii=False] encoder). *)
Definition escape_char (c : N) : pystr :=
  if c =? 92 then [92; 92]
  else if c =? 34 then [92; 34]
  else if c =? 8 then [92; 98]
  else if c =? 12 then [92; 102]
  else if c =? 10 then [92; 110]
  else if c =? 13 then [92; 114]
  else if c =? 9 then [92; 116]
  else if c <? 32 then [92; 117; 48; 48; hex_digit (c / 16); hex_digit (c mod 16)]
  else [c].

Definition encode_basestring (x : pystr) : pystr := 34 :: flat_map escape_char x ++ [34].

Definition newline_indent (lvl : nat) : pystr := LF :: repeat 32 (2 * lvl)%nat.

(** [json.dumps(v, indent=2, ensure_ascii=False)] at nesting level [lvl]; an
    object is dumped as the dict it was decoded to (its members encoded, then
    taken as [dict_items]). *)
Fixpoint json_dumps (lvl : nat) (v : json) : pystr :=
  match v with
  | JNull => s "null"
  | JBool true => s "true"
  | JBool false => s "false"
  | JNum r => json_number r
  | JStr x => encode_basestring x
  | JArr [] => s "[]"
  | JArr items =>
      s "[" ++ newline_indent (S lvl) ++
      join (s "," ++ newline_indent (S lvl)) (map (json_dumps (S lvl)) items) ++
      newline_indent lvl ++ s "]"
  | JObj members =>
      match dict_items (map (fun kv => (kv.1, json_dumps (S lvl) kv.2)) members) with
      | [] => s "{}"
      | items =>
          s "{" ++ newline_indent (S lvl) ++
          join (s "," ++ newline_indent (S lvl))
            (map (fun kv => encode_basestring kv.1 ++ s ": " ++ kv.2) items) ++
          newline_indent lvl ++ s "}"
      end
  end.

(** ** [read_messages_from_csv] *)

(** [str.lower] on one code point: exact below 256 and for the five code
    points above 255 whose lowercase lies below 256; every other code point
    lowers to code points above 255, which are kept as they are here (enough
    to compare a lowered string with an ASCII word). *)
Definition lower_char (c : N) : pystr :=
  if ((65 <=? c) && (c <=? 90)) || ((192 <=? c) && (c <=? 222) && negb (c =? 215))
  then [c + 32]
  else if c =? 304 then [105; 775]
  else if c =? 376 then [255]
  else if c =? 7838 then [223]
  else if c =? 8490 then [107]
  else if c =? 8491 then [229]
  else [c].

Definition py_lower (x : pystr) : pystr := flat_map lower_char x.

(** A row of [csv.DictReader]: field name -> value, [None] for the fields a
    short row lacks (its [restval]); the extra fields of a long row go under
    the key [None] and are left out. *)
Abbreviation csv_row := (gmap pystr (option pystr)).

Record dict_reader := {
  fieldnames : option (list pystr);
  reader_rows : list csv_row
}.

(** [(row.get(k) or "")] *)
Definition row_get (row : csv_row) (k : pystr) : pystr :=
  match row !! k with Some (Some v) => v | _ => [] end.

Definition has_expected_cols (fns : option (list pystr)) : bool :=
  let hs := map (fun h => py_lower (strip h)) (default [] fns) in
  bool_decide (s "role" ∈ hs) && bool_decide (s "content" ∈ hs).

Fixpoint read_rows (rows : list csv_row) : list context_rec :=
  match rows with
  | [] => []
  | row :: rest =>
      let role_raw := py_lower (strip (row_get row (s "role"))) in
      let c := strip (row_get row (s "content")) in
      if bool_decide (c = []) then read_rows rest
      else {| role := if bool_decide (role_raw = s "assistant") then s "assistant" else s "user";
              content := c |} :: read_rows rest
  end.

Definition read_messages_from_csv (r : dict_reader) : exn + list context_rec :=
  if has_expected_cols (fieldnames r) then
    let messages := read_rows (reader_rows r) in
    if bool_decide (messages = []) then inl ValueError else inr messages
  else inl ValueError.

(** ** [call_anthropic] and [call_gpt]

    [requests.post] is the network: it fails with a transport error or gives a
    response. [resp_json] is what [resp.json()] decodes from [resp_text]
    ([None]: the body is not JSON and [resp.json()] raises). The requests sent
    are returned with the result. *)

Record request := {
  req_url : pystr;
  req_headers : list (pystr * pystr);
  req_data : json                      (* sent as [json.dumps(payload)] *)
}.

Record response := {
  status_code : Z;
  resp_reason : pystr;
  resp_text : pystr;
  resp_json : option json
}.

Definition ANTHROPIC_API_URL : pystr := s "https://api.anthropic.com/v1/messages".
Definition ANTHROPIC_VERSION : pystr := s "2023-06-01".
Definition OPENAI_API_URL : pystr := s "https://api.openai.com/v1/chat/completions".

(** [resp.raise_for_status()] *)
Definition raise_for_status (resp : response) : option exn :=
  if ((400 <=? status_code resp) && (status_code resp <? 600))%Z
  then Some (HTTPError (status_code resp) (resp_reason resp) (resp_text resp))
  else None.

(** Lines 92-103 and 128-139: one POST, then decode or raise. *)
Definition post_and_decode (post : request -> exn + response) (req : request)
    : list request * (exn + json) :=
  ([req],
   match post req with
   | inl e => inl e
   | inr resp =>
       match resp_json resp with
       | None => match raise_for_status resp with Some e => inl e | None => inl JSONDecodeError end
       | Some data =>
           if (400 <=? status_code resp)%Z then inl (RuntimeError (json_dumps 0 data))
           else inr data
       end
   end).

Definition call_anthropic (getenv : pystr -> option pystr) (post : request -> exn + response)
    (payload : json) : list request * (exn + json) :=
  match getenv (s "AT_KEY") with
  | None | Some [] => ([], inl (EnvironmentError (s "Missing ANTHROPIC_API_KEY environment variable.")))
  | Some api_key =>
      post_and_decode post
        {| req_url := ANTHROPIC_API_URL;
           req_headers := [(s "x-api-key", api_key); (s "anthropic-version", ANTHROPIC_VERSION);
                           (s "content-type", s "application/json")];
           req_data := payload |}
  end.

Definition context_json (m : context_rec) : json :=
  JObj [(s "role", JStr (role m)); (s "content", JStr (content m))].

(** [max_tokens] and [temperature] by their [repr]. *)
Definition call_gpt (getenv : pystr -> option pystr) (post : request -> exn + response)
    (messages : list context_rec) (system model max_tokens temperature : pystr)
    : list request * (exn + json) :=
  match getenv (s "OAI_KEY") with
  | None | Some [] => ([], inl (EnvironmentError (s "Missing OPENAI_API_KEY environment variable.")))
  | Some api_key =>
      let openai_messages :=
        JObj [(s "role", JStr (s "system")); (s "content", JStr system)] :: map context_json messages in
      post_and_decode post
        {| req_url := OPENAI_API_URL;
           req_headers := [(s "Authorization", s "Bearer " ++ api_key);
                           (s "Content-Type", s "application/json")];
           req_data := JObj [(s "model", JStr model); (s "messages", JArr openai_messages);
                             (s "max_tokens", JNum max_tokens); (s "temperature", JNum temperature)] |}
  end.

(** ** The replies [pretty_print_response] prints (lines 148-166)

    [claude_data] and [gpt_data] are what [resp.json()] decoded. *)

(** [d.get(k, default)] where [d] must be a dict ([AttributeError] otherwise). *)
Definition py_get (d : json) (k : pystr) (default : json) : py_error + json :=
  match d with
  | JObj m => inr (match obj_get m k with Some v => v | None => default end)
  | _ => inl AttributeError
  end.

(** [bool(v)] *)
Definition truthy (v : json) : bool :=
  match v with
  | JNull => false
  | JBool b => b
  | JNum r => negb (bool_decide (r ∈ [s "0"; s "0.0"; s "-0.0"]))
  | JStr x => match x with [] => false | _ => true end
  | JArr l => match l with [] => false | _ => true end
  | JObj m => match m with [] => false | _ => true end
  end.

(** [for x in v]: a list gives its items, a dict its keys, a string its
    characters; a number, a boolean or [None] raises [TypeError]. *)
Definition py_iter (v : json) : py_error + list json :=
  match v with
  | JArr l => inr l
  | JObj m => inr (map JStr (dict_keys [] m))
  | JStr x => inr (map (fun c => JStr [c]) x)
  | _ => inl TypeError
  end.

(** [block.get("text", "")] when [isinstance(block, dict) and
    block.get("type") == "text"]. *)
Definition text_chunk (block : json) : option json :=
  match block with
  | JObj m =>
      match obj_get m (s "type") with
      | Some (JStr ty) => if bool_decide (ty = s "text")
                          then Some (match obj_get m (s "text") with Some v => v | None => JStr [] end)
                          else None
      | _ => None
      end
  | _ => None
  end.

(** ["\n".join([t for t in chunks if t])]: every kept chunk must be a [str]
    ([TypeError] otherwise). *)
Fixpoint join_truthy (chunks : list json) : py_error + list pystr :=
  match chunks with
  | [] => inr []
  | c :: rest =>
      match join_truthy rest with
      | inl e => inl e
      | inr xs =>
          if truthy c then match c with JStr x => inr (x :: xs) | _ => inl TypeError end
          else inr xs
      end
  end.

(** Lines 149-154: [claude_text]. *)
Definition claude_text (claude_data : json) : py_error + pystr :=
  match py_get claude_data (s "content") (JArr []) with
  | inl e => inl e
  | inr blocks =>
      match py_iter blocks with
      | inl e => inl e
      | inr bs =>
          match join_truthy (omap text_chunk bs) with
          | inl e => inl e
          | inr xs => inr (join NL xs)
          end
      end
  end.

(** [gpt_choices[0]] for a truthy [gpt_choices]. *)
Definition first_choice (choices : json) : py_error + json :=
  match choices with
  | JArr (x :: _) => inr x
  | JStr (c :: _) => inr (JStr [c])
  | JObj _ => inl KeyError                (* the keys of a decoded dict are strings *)
  | _ => inl TypeError
  end.

(** Lines 157-160: the value of [gpt_text]. *)
Definition gpt_text (gpt_data : json) : py_error + json :=
  match py_get gpt_data (s "choices") (JArr []) with
  | inl e => inl e
  | inr choices =>
      if truthy choices then
        match first_choice choices with
        | inl e => inl e
        | inr c0 =>
            match py_get c0 (s "message") (JObj []) with
            | inl e => inl e
            | inr msg => py_get msg (s "content") (JStr [])
            end
        end
      else inr (JStr [])
  end.

(** [x.strip() or "(no text content)"] *)
Definition shown (x : pystr) : pystr :=
  if bool_decide (strip x = []) then s "(no text content)" else strip x.

(** Lines 147-165: the replies printed (the banner lines apart), Claude's then
    GPT's, and the exception that ends the function early, if any.  Line 165
    strips [gpt_text] after line 163 has printed Claude's reply, so a
    [gpt_text] that is not a [str] raises [AttributeError] there. *)
Definition reply_prints (claude_data gpt_data : json) : list pystr * option py_error :=
  match claude_text claude_data with
  | inl e => ([], Some e)
  | inr ct =>
      match gpt_text gpt_data with
      | inl e => ([], Some e)
      | inr (JStr gt) => ([shown ct; shown gt], None)
      | inr _ => ([shown ct], Some AttributeError)
      end
  end.

(** ** The batch drivers *)

Inductive event :=
  | Processing (f : pystr)            (* "Processing: ..." for one input file *)
  | Reported (f : pystr) (e : exn)    (* error printed to stderr, file skipped *)
  | PayloadShown (f : pystr)          (* --dry-run: the payload is printed *)
  | Sent (r : request)                (* one network call *)
  | Replied (f : pystr)               (* replies printed and exported *)
  | Slept                             (* time.sleep(20) *)
  | Wrote (path : pystr) (text : pystr).  (* a CSV file written *)

(** How a run ends: [main] returns a status, or an exception escapes (the
    interpreter then exits with status 1). *)
Inductive outcome :=
  | Exit (code : Z)
  | Uncaught (e : exn).

Definition exit_status (o : outcome) : Z :=
  match o with Exit c => c | Uncaught _ => 1 end.

(** The world of [send_context_to_claude.py]: the environment, the network,
    opening a CSV with [csv.DictReader], and the JSON export of
    [pretty_print_response] for an input file and the two replies (lines
    168-201: creating [ai_answers] and writing the file; [Some e] when it
    raises [e]). *)
Record send_world := {
  w_getenv : pystr -> option pystr;
  w_post : request -> exn + response;
  w_open_csv : pystr -> exn + dict_reader;
  w_export : pystr -> json -> json -> option exn
}.

(** [pretty_print_response] for input file [f]: the replies are extracted and
    printed (lines 149-166, [reply_prints]; printing to stdout is taken not to
    fail), then exported; [Some e] when it raises [e]. *)
Definition pretty_print_response (w : send_world) (f : pystr) (claude_data gpt_data : json)
    : option exn :=
  match (reply_prints claude_data gpt_data).2 with
  | Some e => Some (PyError e)
  | None => w_export w f claude_data gpt_data
  end.

Record send_args := {
  a_system : pystr;
  a_model : pystr;
  a_max_tokens : pystr;               (* repr of the int *)
  a_temperature : pystr;              (* repr of the float; argparse default 0.0, never None *)
  a_dry_run : bool
}.

Definition build_payload (messages : list context_rec) (system model max_tokens temperature : pystr)
    : json :=
  JObj [(s "model", JStr model); (s "max_tokens", JNum max_tokens); (s "system", JStr system);
        (s "messages", JArr (map context_json messages)); (s "temperature", JNum temperature)].

(** [read_messages_from_csv(str(csv_file))], opening the file included. *)
Definition read_csv_file (w : send_world) (f : pystr) : exn + list context_rec :=
  match w_open_csv w f with
  | inl e => inl e
  | inr r => read_messages_from_csv r
  end.

(** The [for csv_file in csv_files] loop of [main] (lines 240-283): the events
    of the run and the exception that escapes it, if any. *)
Fixpoint process_csv_files (w : send_world) (args : send_args) (csv_files todo : list pystr)
    : list event * option exn :=
  match todo with
  | [] => ([], None)
  | f :: rest =>
      let continue_with (ev : list event) :=
        let '(tr, r) := process_csv_files w args csv_files rest in (ev ++ tr, r) in
      match read_csv_file w f with
      | inl e => continue_with [Processing f; Reported f e]
      | inr messages =>
          let payload := build_payload messages (a_system args) (a_model args)
                           (a_max_tokens args) (a_temperature args) in
          if a_dry_run args then continue_with [Processing f; PayloadShown f]
          else
            let '(sent1, res1) := call_anthropic (w_getenv w) (w_post w) payload in
            match res1 with
            | inl e => continue_with (Processing f :: map Sent sent1 ++ [Reported f e])
            | inr claude_data =>
                let '(sent2, res2) :=
                  call_gpt (w_getenv w) (w_post w) messages (a_system args) (s "gpt-4o")
                    (a_max_tokens args) (a_temperature args) in
                match res2 with
                | inl e => continue_with (Processing f :: map Sent (sent1 ++ sent2) ++ [Reported f e])
                | inr gpt_data =>
                    match pretty_print_response w f claude_data gpt_data with
                    | Some e => (Processing f :: map Sent (sent1 ++ sent2), Some e)
                    | None =>
                        continue_with (Processing f :: map Sent (sent1 ++ sent2) ++ [Replied f] ++
                          (if bool_decide (last csv_files = Some f) then [] else [Slept]))
                    end
                end
            end
      end
  end.

(** [main] of [send_context_to_claude.py], after argument parsing; [csv_files]
    is [folder_path.glob("*.csv")]. *)
Definition send_main (w : send_world) (args : send_args) (folder_exists : bool)
    (csv_files : list pystr) : list event * outcome :=
  if negb folder_exists then ([], Exit 1)
  else match csv_files with
       | [] => ([], Exit 1)
       | _ :: _ =>
           let '(tr, r) := process_csv_files w args csv_files csv_files in
           (tr, match r with None => Exit 0 | Some e => Uncaught e end)
       end.

(** A [pathlib.Path]: its [name], [stem] and [suffix]. *)
Record path := {
  p_name : pystr;
  p_stem : pystr;
  p_suffix : pystr
}.

(** The world of [conversation_to_context_v2.py]: [read_text(encoding="utf-8-sig")]
    and writing a CSV file with a given text ([Some e] when it raises [e]). *)
Record v2_world := {
  v_read_text : path -> exn + pystr;
  v_write_csv : pystr -> pystr -> option exn
}.

Definition EXPECTED_CONTEXT : list pystr := [s "role"; s "content"].

Definition context_row (r : context_rec) : list pystr := [role r; content r].

(** The text [write_context_to_csv] writes. *)
Definition write_context_to_csv (rows : list context_rec) : pystr :=
  csv_writerow EXPECTED_CONTEXT ++ flat_map (fun r => csv_writerow (context_row r)) rows.

(** [get_files_names]: regular files whose suffix contains "txt". *)
Definition get_files_names (entries : list (path * bool)) : list path :=
  map fst (filter (fun e => e.2 && str_contains (s "txt") (p_suffix e.1)) entries).

Fixpoint v2_process (w : v2_world) (files : list path) : list event * option exn :=
  match files with
  | [] => ([], None)
  | f :: rest =>
      match v_read_text w f with
      | inl e => ([Processing (p_name f)], Some e)
      | inr raw =>
          let rows := parse_chat raw in
          let context := parse_to_context rows in
          let output_path := p_stem f ++ s "_parsed.csv" in
          match v_write_csv w output_path (write_messages_to_csv rows) with
          | Some e => ([Processing (p_name f)], Some e)
          | None =>
              match v_write_csv w (s "context_" ++ output_path) (write_context_to_csv context) with
              | Some e => ([Processing (p_name f); Wrote output_path (write_messages_to_csv rows)], Some e)
              | None =>
                  let '(tr, r) := v2_process w rest in
                  ([Processing (p_name f); Wrote output_path (write_messages_to_csv rows);
                    Wrote (s "context_" ++ output_path) (write_context_to_csv context)] ++ tr, r)
              end
          end
      end
  end.

(** [main] of [conversation_to_context_v2.py] over the entries of the working
    directory ([Path.iterdir] with [is_file]); it returns [None], status 0. *)
Definition v2_main (w : v2_world) (entries : list (path * bool)) : list event * outcome :=
  let '(tr, r) := v2_process w (get_files_names entries) in
  (tr, match r with None => Exit 0 | Some e => Uncaught e end).

(** The input files a run has started on, in order. *)
Fixpoint processed_files (tr : list event) : list pystr :=
  match tr with
  | [] => []
  | Processing f :: tr' => f :: processed_files tr'
  | _ :: tr' => processed_files tr'
  end.

(** [a] occurs in [b] as a contiguous substring ([a in b] in Python). *)
Definition infix (a b : pystr) : Prop := exists k k', b = k ++ a ++ k'.

(** ** Concrete inputs and auxiliary predicates used by the proofs *)

(** Matches found from [pos] on are ordered, non-empty, inside the text, and
    each one ends before the next one starts. *)
Fixpoint well_spaced (text : pystr) (pos : nat) (ms : list hmatch) : Prop :=
  match ms with
  | [] => True
  | m :: later =>
      (pos <= m_start m)%nat /\ (m_start m < m_end m)%nat /\
      (m_end m <= length text)%nat /\ well_spaced text (m_end m) later
  end.

(** A header line up to group 3, at 11:[mm] on 24/07/2025. *)
Definition header (mm : string) : pystr := s ("24/07/2025 11:" ++ mm ++ " - ")%string.

(** The scenario of section 8 of the spec. *)
Definition scenario : pystr :=
  header "22" ++ MAVI_MOSAIC ++ s ": Ol" ++ [225; 33] ++ NL ++
  header "23" ++ s "Ana: Oi, tudo bem?".

(** A text that starts with a line that is not a header. *)
Definition preamble_text : pystr := s "hi" ++ NL ++ header "22" ++ s "Ana: Oi".

(** A block whose body ends in three newlines. *)
Definition trailing_nl_text : pystr := header "22" ++ s "Ana: hi" ++ [LF; LF; LF].

(** What is known of a match of [finditer]: group 3 and what follows the
    match form a piece of the text, and the match ends at a line break or at
    the end of the text. *)
Definition match_ok (text : pystr) (m : hmatch) : Prop :=
  infix (m_rest m ++ drop (m_end m) text) text /\
  (drop (m_end m) text = [] \/ exists y, drop (m_end m) text = LF :: y).

(** A message whose line break is a Windows [\r\n]. *)
Definition crlf_text : pystr := header "22" ++ s "Ana: a" ++ [CR; LF] ++ s "b".

(** A header followed directly by [": "] and a message. *)
Definition empty_sender_text : pystr := header "22" ++ s ": hello".

(** The double quote character. *)
Definition dq : pystr := [34].

(** The JSON error body [{"type":"error"}] with status 400. *)
Definition error_response : response :=
  {| status_code := 400; resp_reason := s "Bad Request";
     resp_text := s "{" ++ dq ++ s "type" ++ dq ++ s ":" ++ dq ++ s "error" ++ dq ++ s "}";
     resp_json := Some (JObj [(s "type", JStr (s "error"))]) |}.

(** A [.txt] file of the working directory. *)
Definition txt_path (stem : string) : path :=
  {| p_name := s (stem ++ ".txt")%string; p_stem := s stem; p_suffix := s ".txt" |}.

(** [bad.txt] cannot be decoded; every other file holds the scenario. *)
Definition one_bad_file_world : v2_world :=
  {| v_read_text := fun f => if bool_decide (p_name f = s "bad.txt") then inl UnicodeDecodeError
                             else inr scenario;
     v_write_csv := fun _ _ => None |}.

(** What [read_messages_from_csv] makes of a row it keeps. *)
Definition read_row (row : csv_row) : context_rec :=
  {| role := if bool_decide (py_lower (strip (row_get row (s "role"))) = s "assistant")
             then s "assistant" else s "user";
     content := strip (row_get row (s "content")) |}.

(** A table with a blank row, a row with only spaces as content and two
    kept rows, one of them with a role written " Assistant ". *)
Definition sample_reader : dict_reader :=
  {| fieldnames := Some [s "role"; s " Content"];
     reader_rows := [
       <[s "role" := Some (s " Assistant ")]> {[ s "content" := Some (s "hi ") ]};
       <[s "role" := Some (s "user")]> {[ s "content" := Some (s "   ") ]};
       {[ s "role" := None ]};
       <[s "role" := Some (s "bot")]> {[ s "content" := Some (s "ok") ]}] |}.

(** ** Shapes of the groups [HEADER] captures *)

(** Group 1, [\d{2}/\d{2}/\d{4}]. *)
Definition date_shaped (x : pystr) : bool :=
  match x with
  | [d1; d2; sl1; d3; d4; sl2; y1; y2; y3; y4] =>
      forallb is_digit [d1; d2; d3; d4; y1; y2; y3; y4] && (sl1 =? 47) && (sl2 =? 47)
  | _ => false
  end.

(** Group 2, [\d{2}:\d{2}]. *)
Definition time_shaped (x : pystr) : bool :=
  match x with
  | [h1; h2; col; n1; n2] => forallb is_digit [h1; h2; n1; n2] && (col =? 58)
  | _ => false
  end.

(** ** What a run of [conversation_to_context_v2.py] writes *)

(** The CSV files a run has written, in order: path and text. *)
Fixpoint written (tr : list event) : list (pystr * pystr) :=
  match tr with
  | [] => []
  | Wrote p text :: tr' => (p, text) :: written tr'
  | _ :: tr' => written tr'
  end.

(** The two CSV files [main] writes for an input file [f] whose text is [raw]. *)
Definition v2_outputs (f : path) (raw : pystr) : list (pystr * pystr) :=
  [(p_stem f ++ s "_parsed.csv", write_messages_to_csv (parse_chat raw));
   (s "context_" ++ p_stem f ++ s "_parsed.csv",
    write_context_to_csv (parse_to_context (parse_chat raw)))].

(** The ways the work on input file [f] raises [e]: reading it, writing its
    messages table, or (that write done) writing its context table. *)
Definition v2_fails_on (w : v2_world) (f : path) (e : exn) : Prop :=
  v_read_text w f = inl e \/
  exists raw, v_read_text w f = inr raw /\
    (v_write_csv w (p_stem f ++ s "_parsed.csv") (write_messages_to_csv (parse_chat raw)) = Some e \/
     v_write_csv w (p_stem f ++ s "_parsed.csv") (write_messages_to_csv (parse_chat raw)) = None /\
     v_write_csv w (s "context_" ++ p_stem f ++ s "_parsed.csv")
       (write_context_to_csv (parse_to_context (parse_chat raw))) = Some e).

(** Every input file holds the scenario, and every write succeeds. *)
Definition all_ok_world : v2_world :=
  {| v_read_text := fun _ => inr scenario; v_write_csv := fun _ _ => None |}.

(** ** What a run of [send_context_to_claude.py] does *)

(** The requests a run has sent, in order. *)
Fixpoint sent_requests (tr : list event) : list request :=
  match tr with
  | [] => []
  | Sent r :: tr' => r :: sent_requests tr'
  | _ :: tr' => sent_requests tr'
  end.

(** How many times a run has slept. *)
Fixpoint sleeps (tr : list event) : nat :=
  match tr with
  | [] => 0
  | Slept :: tr' => S (sleeps tr')
  | _ :: tr' => sleeps tr'
  end.

(** The events of [--dry-run] for one input file: the read error is
    reported, or the payload is printed. *)
Definition dry_run_events (w : send_world) (f : pystr) : list event :=
  match read_csv_file w f with
  | inl e => [Processing f; Reported f e]
  | inr _ => [Processing f; PayloadShown f]
  end.

(** The events for one input file when [AT_KEY] is unset or empty. *)
Definition no_key_events (w : send_world) (f : pystr) : list event :=
  match read_csv_file w f with
  | inl e => [Processing f; Reported f e]
  | inr _ => [Processing f; Reported f (EnvironmentError (s "Missing ANTHROPIC_API_KEY environment variable."))]
  end.

(** Sequences of request URLs in which every request to the GPT endpoint
    directly follows one to the Claude endpoint. *)
Inductive claude_then_gpt : list pystr -> Prop :=
  | ctg_nil : claude_then_gpt []
  | ctg_claude rest : claude_then_gpt rest -> claude_then_gpt (ANTHROPIC_API_URL :: rest)
  | ctg_both rest :
      claude_then_gpt rest -> claude_then_gpt (ANTHROPIC_API_URL :: OPENAI_API_URL :: rest).

(** The [200] answer with body [{}]. *)
Definition ok_response : response :=
  {| status_code := 200; resp_reason := s "OK"; resp_text := s "{}"; resp_json := Some (JObj []) |}.

(** Every CSV holds [sample_reader], every request is answered with
    [ok_response], printing succeeds, and the environment is [env]. *)
Definition sample_send_world (env : pystr -> option pystr) : send_world :=
  {| w_getenv := env;
     w_post := fun _ => inr ok_response;
     w_open_csv := fun _ => inr sample_reader;
     w_export := fun _ _ _ => None |}.

(** The arguments of a run, with or without [--dry-run]. *)
Definition sample_args (dry : bool) : send_args :=
  {| a_system := s "S"; a_model := s "m"; a_max_tokens := s "2048"; a_temperature := s "0.0";
     a_dry_run := dry |}.

(** ** [csv.DictReader] over the rows [csv.reader] gives

    [csv.DictReader] takes the first row as [fieldnames] ([None] for an empty
    file), skips the empty rows, and makes every other row
    [dict(zip(fieldnames, row))], then sets
    [restval] ([None]) for each field name past the end of a short row; the
    fields past the end of a long row go under [restkey] ([None]), which no
    [str] key reaches, and are left out. *)
Definition dict_row (fns row : list pystr) : csv_row :=
  fold_left (fun d k => <[k := None]> d) (drop (length row) fns)
    (fold_left (fun d kv => <[kv.1 := Some kv.2]> d) (zip fns row) ∅).

Definition dict_reader_of_table (tbl : list (list pystr)) : dict_reader :=
  match tbl with
  | [] => {| fieldnames := None; reader_rows := [] |}
  | hdr :: rows => {| fieldnames := Some hdr;
                      reader_rows := map (dict_row hdr) (filter (fun r => r <> []) rows) |}
  end.

(** The request [call_anthropic] sends for [payload] with the key [k]. *)
Definition claude_request (k : pystr) (payload : json) : request :=
  {| req_url := ANTHROPIC_API_URL;
     req_headers := [(s "x-api-key", k); (s "anthropic-version", ANTHROPIC_VERSION);
                     (s "content-type", s "application/json")];
     req_data := payload |}.

(** The request [main] has [call_gpt] send for the messages [ms] of a file,
    with the key [k]: the model is always ["gpt-4o"]. *)
Definition gpt_request (k : pystr) (args : send_args) (ms : list context_rec) : request :=
  {| req_url := OPENAI_API_URL;
     req_headers := [(s "Authorization", s "Bearer " ++ k); (s "Content-Type", s "application/json")];
     req_data := JObj [(s "model", JStr (s "gpt-4o"));
                       (s "messages", JArr (JObj [(s "role", JStr (s "system"));
                                                  (s "content", JStr (a_system args))]
                                            :: map context_json ms));
                       (s "max_tokens", JNum (a_max_tokens args));
                       (s "temperature", JNum (a_temperature args))] |}.

(** What a request sent for input file [f] is. *)
Definition request_for (w : send_world) (args : send_args) (f : pystr) (q : request) : Prop :=
  exists ms, read_csv_file w f = inr ms /\
    ((exists k, w_getenv w (s "AT_KEY") = Some k /\ k <> [] /\
        q = claude_request k (build_payload ms (a_system args) (a_model args)
                                (a_max_tokens args) (a_temperature args))) \/
     (exists k, w_getenv w (s "OAI_KEY") = Some k /\ k <> [] /\ q = gpt_request k args ms)).

(** ** Reading back what [csv.writer] wrote *)

(** The reader over a stream of inputs: a record is returned at each [EOL]
    after which the state is [START_RECORD]; the records, and the parser
    left at the end. *)
Fixpoint csv_run (inputs : list csv_input) (p : csv_parser)
    : option (list (list pystr) * csv_parser) :=
  match inputs with
  | [] => Some ([], p)
  | i :: rest =>
      match process_char p i with
      | None => None
      | Some q =>
          match i, ps_state q with
          | EOL, START_RECORD =>
              (fun rq => (ps_fields q :: rq.1, rq.2)) <$> csv_run rest fresh_parser
          | _, _ => csv_run rest q
          end
      end
  end.

(** The inputs the reader gets from a text without [\r]: an [EOL] after
    each [\n]. *)
Definition csv_events (text : pystr) : list csv_input :=
  flat_map (fun c => if c =? LF then [CChar c; EOL] else [CChar c]) text.

(** A field [csv.reader] reads back as written: no [\r] (which [csv.writer]
    leaves unquoted and the reader takes as a line end) and no more
    characters than the field limit. *)
Definition csv_safe (x : pystr) : Prop :=
  (CR ∉ x) /\ (N.of_nat (length x) <= FIELD_LIMIT)%N.

#[global] Instance csv_safe_dec x : Decision (csv_safe x).
Proof. unfold csv_safe. apply _. Defined.

(** A message as its row of the messages file reads back: an empty sender
    field is an absent sender. *)
Definition blank_sender_absent (p : parsed) : parsed :=
  {| date := date p; time := time p;
     sender := match sender p with Some [] => None | snd => snd end;
     message := message p |}.

(** The line-end rewriting of [parse_chat] (line 90) applied to a whole text. *)
Definition normalize_newlines (x : pystr) : pystr := replace_cr (replace_crlf x).

(** The work on input file [f] of [conversation_to_context_v2.main] succeeds:
    it is read and both its CSV files are written. *)
Definition v2_succeeds_on (w : v2_world) (f : path) : Prop :=
  exists raw, v_read_text w f = inr raw /\
    v_write_csv w (p_stem f ++ s "_parsed.csv") (write_messages_to_csv (parse_chat raw)) = None /\
    v_write_csv w (s "context_" ++ p_stem f ++ s "_parsed.csv")
      (write_context_to_csv (parse_to_context (parse_chat raw))) = None.

(** The errors [send_context_to_claude.main] reports for input file [f]
    before skipping it: reading it, or (not in a dry run) the Claude call, or
    (Claude having answered) the GPT call. *)
Definition send_file_error (w : send_world) (args : send_args) (f : pystr) (e : exn) : Prop :=
  read_csv_file w f = inl e \/
  exists ms, read_csv_file w f = inr ms /\ a_dry_run args = false /\
    ((call_anthropic (w_getenv w) (w_post w)
        (build_payload ms (a_system args) (a_model args) (a_max_tokens args) (a_temperature args))).2
       = inl e \/
     exists cd,
       (call_anthropic (w_getenv w) (w_post w)
          (build_payload ms (a_system args) (a_model args) (a_max_tokens args) (a_temperature args))).2
         = inr cd /\
       (call_gpt (w_getenv w) (w_post w) ms (a_system args) (s "gpt-4o") (a_max_tokens args)
          (a_temperature args)).2 = inl e).

(** [pretty_print_response] raises [e] for input file [f], both replies
    having come in. *)
Definition send_print_error (w : send_world) (args : send_args) (f : pystr) (e : exn) : Prop :=
  exists ms cd gd, read_csv_file w f = inr ms /\ a_dry_run args = false /\
    (call_anthropic (w_getenv w) (w_post w)
       (build_payload ms (a_system args) (a_model args) (a_max_tokens args) (a_temperature args))).2
      = inr cd /\
    (call_gpt (w_getenv w) (w_post w) ms (a_system args) (s "gpt-4o") (a_max_tokens args)
       (a_temperature args)).2 = inr gd /\
    pretty_print_response w f cd gd = Some e.

(** A message whose text holds a lone [\r]. *)
Definition cr_message : parsed :=
  {| date := s "24/07/2025"; time := s "11:22"; sender := Some (s "Ana");
     message := s "a" ++ [CR] ++ s "b" |}.

(* ===== LEMMAS ===== *)

(** ** Lemmas on the string operations *)

Lemma take_drop_while p l : take_while p l ++ drop_while p l = l.
Proof. induction l as [|c t IH]; simpl; [done|]. destruct (p c); simpl; by rewrite ?IH. Qed.

Lemma length_take_drop_while p l :
  (length (take_while p l) + length (drop_while p l))%nat = length l.
Proof. by rewrite <- length_app, take_drop_while. Qed.

Lemma drop_while_not_lf l :
  drop_while not_lf l = [] \/ exists t, drop_while not_lf l = LF :: t.
Proof.
  induction l as [|c t IH]; simpl; [by left|].
  destruct (not_lf c) eqn:E; [done|]. right. exists t.
  unfold not_lf in E. apply negb_false_iff, N.eqb_eq in E. by subst.
Qed.

(** A header match consumes a non-empty header part and then group 3, which
    stops right before a [\n] or at the end of the text. *)
Lemma match_header_shape x d t r len :
  match_header x = Some (d, t, r, len) ->
  exists hdr, x = hdr ++ r ++ drop len x /\ len = (length hdr + length r)%nat /\
    (0 < length hdr)%nat /\ (drop len x = [] \/ exists y, drop len x = LF :: y).
Proof.
  unfold match_header.
  destruct x as [|d1 [|d2 [|sl1 [|d3 [|d4 [|sl2 [|y1 [|y2 [|y3 [|y4 x1]]]]]]]]]];
    try discriminate.
  destruct (forallb _ _ && _ && _); [|discriminate].
  pose proof (take_drop_while is_space x1) as T1.
  destruct (drop_while is_space x1) as [|h1 [|h2 [|col [|n1 [|n2 x3]]]]];
    try discriminate.
  destruct (negb _ && _ && _); [|discriminate].
  pose proof (take_drop_while is_space x3) as T3.
  destruct (drop_while is_space x3) as [|dash [|sp x5]]; try discriminate.
  destruct (negb _ && _ && _); [|discriminate].
  intros H. injection H as <- <- <- Hlen.
  pose proof (take_drop_while not_lf x5) as T5.
  pose proof (drop_while_not_lf x5) as D5.
  set (w1 := take_while is_space x1) in *. set (w2 := take_while is_space x3) in *.
  set (rest := take_while not_lf x5) in *.
  set (hd := [d1; d2; sl1; d3; d4; sl2; y1; y2; y3; y4] ++ w1 ++ [h1; h2; col; n1; n2]
               ++ w2 ++ [dash; sp]).
  assert (E : d1 :: d2 :: sl1 :: d3 :: d4 :: sl2 :: y1 :: y2 :: y3 :: y4 :: x1
              = hd ++ rest ++ drop_while not_lf x5).
  { subst hd. rewrite T5, <- T1, <- T3. by rewrite <- !app_assoc. }
  assert (Hl : len = (length hd + length rest)%nat).
  { subst hd. rewrite <- Hlen, !length_app. simpl. lia. }
  rewrite Hl, E, app_assoc, drop_app_length'; [|by rewrite length_app].
  exists hd. split; [by rewrite <- app_assoc|]. split; [done|].
  split; [subst hd; simpl; lia|done].
Qed.

(** ** Invariants of [finditer] *)

Lemma well_spaced_weaken text pos pos' ms :
  (pos <= pos')%nat -> well_spaced text pos' ms -> well_spaced text pos ms.
Proof. destruct ms; simpl; [done|]. intros ? (? & ? & ? & ?). repeat split; auto; lia. Qed.

Lemma match_header_length x d t r len :
  match_header x = Some (d, t, r, len) -> (0 < len)%nat /\ (len <= length x)%nat.
Proof.
  intros H. destruct (match_header_shape _ _ _ _ _ H) as (hd & E & Hl & Hpos & _).
  split; [lia|]. apply (f_equal length) in E. rewrite !length_app in E. lia.
Qed.

Lemma scan_well_spaced text fuel pos : well_spaced text pos (scan fuel text pos).
Proof.
  revert pos. induction fuel as [|fuel IH]; intros pos; simpl; [done|].
  destruct (if at_bol text pos then match_header (drop pos text) else None)
    as [[[[d t] r] len]|] eqn:Hm.
  - destruct (at_bol text pos); [|discriminate].
    apply match_header_length in Hm as [Hlen Hle]. rewrite length_drop in Hle.
    simpl. repeat split; [lia|lia|lia|]. apply IH.
  - eapply well_spaced_weaken; [|apply IH]. lia.
Qed.

Lemma finditer_well_spaced text : well_spaced text 0 (finditer text).
Proof. apply scan_well_spaced. Qed.

Lemma slice_app_drop text a b :
  (a <= b)%nat -> slice text a b ++ drop b text = drop a text.
Proof.
  intros Hab. unfold slice.
  replace b with (a + (b - a))%nat at 2 by lia.
  by rewrite <- drop_drop, take_drop.
Qed.

(** The spans of consecutive blocks meet: together they cover the text from
    the first match on. *)
Lemma blocks_concat text pos ms :
  well_spaced text pos ms ->
  concat (map (fun b => slice text b.1 b.2) (blocks text ms)) =
  match ms with [] => [] | m :: _ => drop (m_start m) text end.
Proof.
  revert pos. induction ms as [|m later IH]; intros pos Hw; simpl; [done|].
  destruct Hw as (_ & Hlt & Hle & Hw).
  rewrite (IH _ Hw). destruct later as [|m2 later']; simpl.
  - rewrite app_nil_r. unfold slice. apply take_ge. rewrite length_drop. lia.
  - apply slice_app_drop. destruct Hw as (? & _). lia.
Qed.

Lemma length_parse_loop text ms : length (parse_loop text ms) = length ms.
Proof.
  induction ms as [|m later IH]; simpl; [done|].
  destruct (decompose _ _). simpl. by rewrite IH.
Qed.

Lemma length_blocks text ms : length (blocks text ms) = length ms.
Proof. induction ms; simpl; by f_equal. Qed.

Lemma blocks_starts text ms : map fst (blocks text ms) = map m_start ms.
Proof. induction ms; simpl; by f_equal. Qed.

(** ** Substrings *)

Lemma infix_refl a : infix a a.
Proof. exists [], []. by rewrite app_nil_r. Qed.

Lemma infix_trans a b c : infix a b -> infix b c -> infix a c.
Proof.
  intros (k1 & k1' & ->) (k2 & k2' & ->).
  exists (k2 ++ k1), (k1' ++ k2'). by rewrite <- !app_assoc.
Qed.

Lemma infix_nil a : infix [] a.
Proof. by exists [], a. Qed.

Lemma prefix_infix a b : a `prefix_of` b -> infix a b.
Proof. intros [k ->]. by exists [], k. Qed.

Lemma suffix_infix a b : a `suffix_of` b -> infix a b.
Proof. intros [k ->]. exists k, []. by rewrite app_nil_r. Qed.

Lemma infix_cons_inv (a b : pystr) c :
  infix a (c :: b) -> a `prefix_of` c :: b \/ infix a b.
Proof.
  intros ([|c' k] & k' & E).
  - left. by exists k'.
  - right. injection E as _ ->. by exists k, k'.
Qed.

Lemma infix_cons (a b : pystr) c : infix a b -> infix a (c :: b).
Proof. intros (k & k' & ->). by exists (c :: k), k'. Qed.

Lemma drop_while_suffix p l : drop_while p l `suffix_of` l.
Proof.
  induction l as [|c t IH]; simpl; [done|].
  destruct (p c); [by apply suffix_cons_r|done].
Qed.

Lemma rev_suffix_prefix (a b : pystr) : a `suffix_of` b -> rev a `prefix_of` rev b.
Proof. intros [k ->]. exists (rev k). by rewrite rev_app_distr. Qed.

Lemma rstrip_nl_prefix x : rstrip_nl x `prefix_of` x.
Proof.
  unfold rstrip_nl.
  pose proof (rev_suffix_prefix _ _ (drop_while_suffix (fun c => c =? LF) (rev x))) as H.
  by rewrite rev_involutive in H.
Qed.

Lemma strip_infix x : infix (strip x) x.
Proof.
  unfold strip, rstrip, lstrip. eapply infix_trans.
  - apply prefix_infix.
    pose proof (rev_suffix_prefix _ _
      (drop_while_suffix is_space (rev (drop_while is_space x)))) as H.
    by rewrite rev_involutive in H.
  - apply suffix_infix, drop_while_suffix.
Qed.

Lemma starts_with_prefix p x : starts_with p x = true <-> p `prefix_of` x.
Proof.
  revert x. induction p as [|a p IH]; intros [|b x]; simpl.
  - split; [intros _; apply prefix_nil|done].
  - split; [intros _; apply prefix_nil|done].
  - split; [done|]. intros H. by apply prefix_nil_not in H.
  - rewrite andb_true_iff, N.eqb_eq, IH. split.
    + intros [-> ?]. by apply prefix_cons.
    + intros H. split; [by apply prefix_cons_inv_1 in H|by apply prefix_cons_inv_2 in H].
Qed.

(** [split(sep, 1)] returns the text before the first occurrence and the text
    after it. *)
Lemma split_once_Some sep x a b :
  sep <> [] -> split_once sep x = Some (a, b) -> x = a ++ sep ++ b /\ ~ infix sep a.
Proof.
  intros Hsep. revert a b. induction x as [|c t IH]; intros a b; simpl.
  - destruct (starts_with sep []) eqn:E; [|discriminate].
    apply starts_with_prefix, prefix_nil_inv in E. done.
  - destruct (starts_with sep (c :: t)) eqn:E.
    + intros H; injection H as <- <-. apply starts_with_prefix in E as [k Ek].
      rewrite Ek. simpl. rewrite drop_app_length. split; [done|].
      intros (k1 & k2 & Hk). destruct k1, sep; simpl in Hk; try discriminate; done.
    + destruct (split_once sep t) as [[a' b']|] eqn:Es; [|discriminate].
      intros H; injection H as <- <-. destruct (IH _ _ eq_refl) as [-> Hn].
      split; [done|]. intros Hi. apply infix_cons_inv in Hi as [Hp|Hi]; [|done].
      assert (Hp' : sep `prefix_of` c :: a' ++ sep ++ b')
        by (eapply prefix_app_r in Hp; by rewrite <- app_comm_cons in Hp).
      apply starts_with_prefix in Hp'. congruence.
Qed.

Lemma split_once_None sep x : split_once sep x = None <-> ~ infix sep x.
Proof.
  induction x as [|c t IH]; simpl.
  - destruct (starts_with sep []) eqn:E.
    + split; [done|]. intros H. exfalso. apply H.
      apply starts_with_prefix in E. by apply prefix_infix.
    + split; [|done]. intros _ (k & k' & Hk).
      destruct k, sep; simpl in *; try discriminate.
  - destruct (starts_with sep (c :: t)) eqn:E.
    + split; [done|]. intros H. exfalso. apply H.
      apply starts_with_prefix in E. by apply prefix_infix.
    + destruct (split_once sep t) as [[a b]|] eqn:Es.
      * split; [done|]. intros H. exfalso. apply H. apply infix_cons.
        assert (Hsep : sep <> []) by (intros ->; discriminate).
        destruct (split_once_Some _ _ _ _ Hsep Es) as [-> _]. by exists a, b.
      * split; [|done]. intros _ Hi. apply infix_cons_inv in Hi as [Hp|Hi].
        -- apply starts_with_prefix in Hp. congruence.
        -- by apply IH.
Qed.

Lemma split_once_cons sep c t :
  split_once sep (c :: t) =
  if starts_with sep (c :: t) then Some ([], drop (length sep) (c :: t))
  else match split_once sep t with Some (a, b) => Some (c :: a, b) | None => None end.
Proof. reflexivity. Qed.

(** [": "] cannot overlap itself, so a prefix free of it is exactly the
    part before the first occurrence. *)
Lemma split_once_colon_sp pre post :
  ~ infix COLON_SP pre -> split_once COLON_SP (pre ++ COLON_SP ++ post) = Some (pre, post).
Proof.
  induction pre as [|c pre IH]; intros Hn; [done|].
  cbn [app]. rewrite split_once_cons, IH; [|intros Hi; apply Hn, infix_cons, Hi].
  destruct (starts_with COLON_SP (c :: pre ++ COLON_SP ++ post)) eqn:E; [|done].
  exfalso. apply starts_with_prefix in E.
  destruct pre as [|c2 pre'].
  - apply prefix_cons_inv_2, prefix_cons_inv_1 in E. discriminate.
  - apply Hn. apply prefix_cons_inv_1 in E as Ec.
    apply prefix_cons_inv_2, prefix_cons_inv_1 in E. subst.
    exists [], pre'. done.
Qed.

Lemma split_sender_and_text_first pre post :
  ~ infix COLON_SP pre ->
  split_sender_and_text (pre ++ COLON_SP ++ post) =
  if bool_decide (strip pre = []) && bool_decide (strip post = [])
  then (None, []) else (Some (strip pre), post).
Proof. intros Hn. unfold split_sender_and_text. by rewrite split_once_colon_sp. Qed.

Lemma split_sender_and_text_none x :
  ~ infix COLON_SP x -> split_sender_and_text x = (None, x).
Proof. intros Hn. unfold split_sender_and_text. by apply split_once_None in Hn as ->. Qed.

Lemma strip_last x :
  strip x = [] \/ exists c, last (strip x) = Some c /\ is_space c = false.
Proof.
  unfold strip, rstrip. remember (rev (lstrip x)) as y. clear Heqy.
  induction y as [|c y IH]; simpl; [by left|].
  destruct (is_space c) eqn:E; [done|].
  right. exists c. split; [|done]. simpl. by rewrite last_snoc.
Qed.

Lemma decompose_message rest body :
  exists m, (decompose rest body).2 = strip m.
Proof.
  unfold decompose. destruct (split_sender_and_text _). simpl. eauto.
Qed.

Lemma parse_loop_messages text ms :
  Forall (fun p => exists rest body, message p = (decompose rest body).2) (parse_loop text ms).
Proof.
  induction ms as [|m later IH]; simpl; [constructor|].
  destruct (decompose (m_rest m) _) as [snd msg] eqn:E. constructor; [|done].
  simpl. eexists _, _. by rewrite E.
Qed.

(** ** Concrete runs *)

Example scenario_parse :
  parse_chat scenario =
  [{| date := s "24/07/2025"; time := s "11:22"; sender := Some MAVI_MOSAIC;
      message := s "Ol" ++ [225; 33] |};
   {| date := s "24/07/2025"; time := s "11:23"; sender := Some (s "Ana");
      message := s "Oi, tudo bem?" |}].
Proof. vm_compute. reflexivity. Qed.

Example scenario_roles :
  map role (parse_to_context (parse_chat scenario)) = [s "assistant"; s "user"].
Proof. vm_compute. reflexivity. Qed.

Example multiline_and_system :
  map (fun p => (sender p, message p))
    (parse_chat (header "22" ++ s "Ana: a" ++ NL ++ NL ++ s "b: c" ++ NL ++
                 header "23" ++ s "Messages are encrypted" ++ NL ++ header "24"))
  = [(Some (s "Ana"), s "a" ++ NL ++ NL ++ s "b: c");
     (None, s "Messages are encrypted"); (None, [])].
Proof. vm_compute. reflexivity. Qed.

(** ** C1: blocks and the text they cover *)

(** C1 (counterexample): the blocks of [preamble_text] do not concatenate to
    the text: the line before the first header belongs to no block. *)
Lemma C1_preamble_outside_blocks : concat (block_texts preamble_text) <> preamble_text.
Proof. vm_compute. discriminate. Qed.

(** C1 (amended): [parse_chat] yields one message per header match; the blocks
    start at the matches, in order, each ends where the next one starts (the
    last at the end of the text), and together they are exactly the text from
    the first header on; with no header there is no block. *)
Theorem C1_blocks_cover_text_from_first_header (text : pystr) :
  length (parse_chat text) = length (finditer text) /\
  map fst (block_spans text) = map m_start (finditer text) /\
  concat (block_texts text) =
    match finditer text with [] => [] | m :: _ => drop (m_start m) text end.
Proof.
  split; [apply length_parse_loop|]. split; [apply blocks_starts|].
  unfold block_texts, block_spans. eapply blocks_concat, finditer_well_spaced.
Qed.

(** ** C2: splitting sender and message *)

(** C2 (counterexample): [": "] splits into an empty identity and an empty
    message, and the sender is then absent, not the (empty) identity. *)
Lemma C2_empty_split_has_no_sender :
  split_sender_and_text ([] ++ COLON_SP ++ []) = (None, []) /\
  split_sender_and_text ([] ++ COLON_SP ++ []) <> (Some (strip []), []).
Proof. split; [reflexivity|discriminate]. Qed.

(** C2 (amended): the text is split at the first [": "]: the sender is the
    stripped text before it and the message the text after it (stripped later
    by [parse_chat]), whatever hyphens or colons either part holds; only when
    both parts strip to nothing is the sender absent and the message empty. *)
Theorem C2_split_at_first_colon_space (pre post : pystr) :
  ~ infix COLON_SP pre ->
  split_sender_and_text (pre ++ COLON_SP ++ post) =
  if bool_decide (strip pre = []) && bool_decide (strip post = [])
  then (None, []) else (Some (strip pre), post).
Proof. apply split_sender_and_text_first. Qed.

Lemma C2_split_at_first_colon_space_witness :
  ~ infix COLON_SP (s "Mavi - Mosaic") /\
  split_sender_and_text (s "Mavi - Mosaic" ++ COLON_SP ++ s "at 10: ok") =
  (Some (s "Mavi - Mosaic"), s "at 10: ok").
Proof.
  assert (Hn : ~ infix COLON_SP (s "Mavi - Mosaic")).
  { intros Hi. apply split_once_None in Hi; [done|]. reflexivity. }
  split; [exact Hn|].
  rewrite (C2_split_at_first_colon_space _ _ Hn). vm_compute. reflexivity.
Defined.

(** ** C3: trailing newlines of a block *)

(** C3 (counterexample): the only block of [trailing_nl_text] ends in three
    newlines, yet its message keeps none of them, not two. *)
Lemma C3_all_trailing_newlines_removed :
  block_texts trailing_nl_text = [trailing_nl_text] /\
  map message (parse_chat trailing_nl_text) = [s "hi"] /\
  ~ exists m, map message (parse_chat trailing_nl_text) = [m ++ [LF; LF]].
Proof.
  split; [vm_compute; reflexivity|]. split; [vm_compute; reflexivity|].
  intros [m Hm]. vm_compute in Hm. injection Hm as Hm.
  apply (f_equal (@length N)) in Hm as Hl. rewrite length_app in Hl. simpl in Hl.
  destruct m as [|a [|b m]]; simpl in *; try lia. discriminate.
Qed.

(** C3 (amended): all trailing newlines of the combined text are removed and
    the message is then stripped of surrounding white space, so no message
    ends in a newline or any other white space. *)
Theorem C3_message_has_no_trailing_whitespace (text : pystr) :
  Forall (fun p => message p = [] \/ exists c, last (message p) = Some c /\ is_space c = false)
    (parse_chat text).
Proof.
  eapply Forall_impl; [apply parse_loop_messages|].
  intros p (rest & body & ->). destruct (decompose_message rest body) as [m ->].
  apply strip_last.
Qed.

(** ** C4: when the sender is absent *)

(** C4: [split_sender_and_text] gives no sender exactly when [": "] does not
    occur (the whole text is then the message) or when the parts around its
    first occurrence both strip to nothing (the message is then empty). *)
Theorem C4_absent_sender_cases (x : pystr) :
  ((split_sender_and_text x).1 = None <->
     ~ infix COLON_SP x \/
     exists pre post, x = pre ++ COLON_SP ++ post /\ ~ infix COLON_SP pre /\
                      strip pre = [] /\ strip post = []) /\
  (~ infix COLON_SP x -> split_sender_and_text x = (None, x)) /\
  (forall pre post, x = pre ++ COLON_SP ++ post -> ~ infix COLON_SP pre ->
     strip pre = [] -> strip post = [] -> split_sender_and_text x = (None, [])).
Proof.
  assert (Hdeg : forall pre post, x = pre ++ COLON_SP ++ post -> ~ infix COLON_SP pre ->
     strip pre = [] -> strip post = [] -> split_sender_and_text x = (None, [])).
  { intros pre post -> Hn Hp Hq. rewrite split_sender_and_text_first by done.
    by rewrite Hp, Hq. }
  split; [|split; [apply split_sender_and_text_none|exact Hdeg]].
  split.
  - unfold split_sender_and_text.
    destruct (split_once COLON_SP x) as [[a b]|] eqn:E.
    + destruct (split_once_Some COLON_SP x a b ltac:(unfold COLON_SP; discriminate) E) as [-> Hn].
      destruct (bool_decide (strip a = [])) eqn:Ea, (bool_decide (strip b = [])) eqn:Eb;
        simpl; try discriminate.
      intros _. right. exists a, b. apply bool_decide_eq_true in Ea, Eb. done.
    + intros _. left. by apply split_once_None.
  - intros [Hn|(pre & post & Hx & Hn & Hp & Hq)].
    + by rewrite split_sender_and_text_none.
    + by rewrite (Hdeg pre post).
Qed.

(** ** C5: messages are pieces of the text *)

Lemma drop_infix (text : pystr) n : infix (drop n text) text.
Proof. exists (take n text), []. by rewrite app_nil_r, take_drop. Qed.

Lemma scan_match_ok text fuel pos : Forall (match_ok text) (scan fuel text pos).
Proof.
  revert pos. induction fuel as [|fuel IH]; intros pos; simpl; [constructor|].
  destruct (if at_bol text pos then match_header (drop pos text) else None)
    as [[[[d t] r] len]|] eqn:Hm; [|apply IH].
  destruct (at_bol text pos); [|discriminate].
  constructor; [|apply IH]. unfold match_ok; simpl.
  destruct (match_header_shape _ _ _ _ _ Hm) as (hd & E & _ & _ & Hnl).
  rewrite drop_drop in E, Hnl. split; [|done].
  eapply infix_trans; [|apply (drop_infix text pos)].
  rewrite E. exists hd, []. by rewrite app_nil_r.
Qed.

Lemma not_elem_of_infix (a b : pystr) c : infix a b -> c ∉ b -> c ∉ a.
Proof. intros (k & k' & ->) Hn Ha. apply Hn. set_solver. Qed.

Lemma replace_crlf_id x : CR ∉ x -> replace_crlf x = x.
Proof.
  induction x as [|c t IH]; intros Hn; simpl; [done|].
  apply not_elem_of_cons in Hn as [Hc Ht].
  destruct (c =? CR) eqn:E; [apply N.eqb_eq in E; congruence|]. by rewrite IH.
Qed.

Lemma replace_cr_id x : CR ∉ x -> replace_cr x = x.
Proof.
  induction x as [|c t IH]; intros Hn; simpl; [done|].
  apply not_elem_of_cons in Hn as [Hc Ht].
  destruct (c =? CR) eqn:E; [apply N.eqb_eq in E; congruence|].
  f_equal. exact (IH Ht).
Qed.

Lemma split_message_infix x : infix (split_sender_and_text x).2 x.
Proof.
  unfold split_sender_and_text.
  destruct (split_once COLON_SP x) as [[a b]|] eqn:E; [|apply infix_refl].
  apply split_once_Some in E as [-> _]; [|unfold COLON_SP; discriminate].
  destruct (_ && _); simpl; [apply infix_nil|].
  exists (a ++ COLON_SP), []. by rewrite app_nil_r, <- app_assoc.
Qed.

Lemma replace_cr_app x y : replace_cr (x ++ y) = replace_cr x ++ replace_cr y.
Proof. apply map_app. Qed.

(** What [replace_crlf] makes of a suffix survives in the whole. *)
Lemma replace_crlf_app_r x y : exists z, replace_crlf (x ++ y) = z ++ replace_crlf y.
Proof.
  remember (length x) as n eqn:En. revert x En.
  induction n as [n IH] using lt_wf_ind. intros x En.
  destruct x as [|c x]; [by exists []|]. simpl.
  destruct (c =? CR) eqn:Ec.
  - destruct x as [|d x'].
    + simpl. destruct y as [|d t]; [by exists [c]|].
      destruct (d =? LF) eqn:Ed.
      * apply N.eqb_eq in Ed as ->. exists []. reflexivity.
      * by exists [c].
    + simpl. destruct (d =? LF) eqn:Ed.
      * destruct (IH (length x') ltac:(simpl in En; lia) x' eq_refl) as [z Hz].
        exists (LF :: z). by rewrite Hz.
      * destruct (IH (length (d :: x')) ltac:(simpl in En |- *; lia) (d :: x') eq_refl) as [z Hz].
        exists (c :: z). simpl in Hz. by rewrite Hz.
  - destruct (IH (length x) ltac:(simpl in En; lia) x eq_refl) as [z Hz].
    exists (c :: z). by rewrite Hz.
Qed.

(** Normalising a text, then extending it, gives a prefix of normalising the
    extended text. *)
Lemma normalize_newlines_prefix x y :
  normalize_newlines x `prefix_of` normalize_newlines (x ++ y).
Proof.
  unfold normalize_newlines, replace_cr.
  remember (length x) as n eqn:En. revert x En.
  induction n as [n IH] using lt_wf_ind. intros x En.
  destruct x as [|c x]; [apply prefix_nil|]. simpl.
  destruct (c =? CR) eqn:Ec.
  - apply N.eqb_eq in Ec as ->. destruct x as [|d x'].
    + simpl. destruct y as [|d t]; simpl; [reflexivity|].
      destruct (d =? LF); simpl; apply prefix_cons, prefix_nil.
    + cbn [app]. destruct (d =? LF); cbn [map]; apply prefix_cons.
      * apply (IH (length x')); [simpl in En; lia|done].
      * exact (IH (length (d :: x')) ltac:(simpl in En |- *; lia) (d :: x') eq_refl).
  - simpl. apply prefix_cons. apply (IH (length x)); [simpl in En; lia|done].
Qed.

(** A piece of a text, normalised, is a piece of the normalised text. *)
Lemma normalize_newlines_infix a b :
  infix a b -> infix (normalize_newlines a) (normalize_newlines b).
Proof.
  intros (P & Q & ->).
  destruct (replace_crlf_app_r P (a ++ Q)) as [z Hz].
  destruct (normalize_newlines_prefix a Q) as [k Hk].
  exists (replace_cr z), k. unfold normalize_newlines in *.
  by rewrite Hz, replace_cr_app, Hk.
Qed.

Lemma decompose_infix rest body :
  (body = [] \/ exists y, body = LF :: y) ->
  infix (decompose rest body).2 (normalize_newlines (rest ++ body)).
Proof.
  intros Hb. unfold decompose.
  assert (Hfull : (if starts_with [LF] body then rest ++ body
                   else if bool_decide (body = []) then rest else rest ++ [LF] ++ body)
                  = rest ++ body).
  { destruct Hb as [->|[y ->]]; simpl; [by rewrite app_nil_r|]. reflexivity. }
  rewrite Hfull. fold (normalize_newlines (rest ++ body)).
  destruct (split_sender_and_text (rstrip_nl (normalize_newlines (rest ++ body)))) as [snd msg] eqn:E.
  simpl. eapply infix_trans; [apply strip_infix|].
  eapply infix_trans; [|apply prefix_infix, rstrip_nl_prefix].
  pose proof (split_message_infix (rstrip_nl (normalize_newlines (rest ++ body)))) as H.
  by rewrite E in H.
Qed.

Lemma take_lf_start (d : pystr) k :
  (d = [] \/ exists y, d = LF :: y) -> take k d = [] \/ exists y, take k d = LF :: y.
Proof.
  intros [->|[y ->]]; [left; by rewrite take_nil|].
  destruct k; simpl; [by left|]. right. eauto.
Qed.

Lemma replace_cr_no_cr y : CR ∉ replace_cr y.
Proof.
  induction y as [|c y IH]; simpl; [apply not_elem_of_nil|].
  apply not_elem_of_cons. split; [|done].
  destruct (c =? CR) eqn:E; [unfold LF, CR; lia|]. apply N.eqb_neq in E. done.
Qed.

(** C5 (counterexample): the body of [crlf_text] breaks its line with
    [\r\n], and the message holds a bare [\n] there instead. *)
Lemma C5_crlf_line_break_rewritten :
  infix (s "a" ++ [CR; LF] ++ s "b") crlf_text /\
  map message (parse_chat crlf_text) = [s "a" ++ [LF] ++ s "b"].
Proof.
  split; [|vm_compute; reflexivity].
  exists (header "22" ++ s "Ana: "), []. vm_compute. reflexivity.
Qed.

(** C5 (amended): line breaks [\r\n] and lone [\r] are rewritten to [\n]
    ([normalize_newlines], line 90 applied to the whole text); every message
    is a contiguous piece of the text so normalised and holds no [\r], so all
    its internal newlines are those of the text, each [\r\n] or [\r] having
    become [\n]. A text without [\r] is left as it is by the normalisation. *)
Theorem C5_message_is_piece_of_text (text : pystr) :
  Forall (fun p => infix (message p) (normalize_newlines text) /\ (CR ∉ message p)) (parse_chat text) /\
  (CR ∉ text -> normalize_newlines text = text).
Proof.
  split.
  2:{ intros Hcr. unfold normalize_newlines. by rewrite replace_crlf_id, replace_cr_id. }
  unfold parse_chat.
  pose proof (scan_match_ok text (S (length text)) 0) as Hok. fold (finditer text) in Hok.
  induction Hok as [|m later [Hinf Hnl] _ IH]; simpl; [constructor|].
  set (body := slice text (m_end m) (next_start text later)).
  destruct (decompose (m_rest m) body) as [snd msg] eqn:E.
  constructor; [|exact IH]. simpl.
  assert (Hrb : infix (m_rest m ++ body) text).
  { eapply infix_trans; [|exact Hinf]. apply prefix_infix.
    exists (drop (next_start text later - m_end m) (drop (m_end m) text)).
    unfold body, slice. by rewrite <- app_assoc, take_drop. }
  replace msg with (decompose (m_rest m) body).2 by (by rewrite E).
  split.
  - eapply infix_trans; [|apply normalize_newlines_infix, Hrb].
    apply decompose_infix. by apply take_lf_start.
  - eapply not_elem_of_infix; [apply decompose_infix; by apply take_lf_start|].
    apply replace_cr_no_cr.
Qed.

(** ** C6: roles *)

(** C6: [parse_to_context] gives one record per message, in order, whose
    content is the message and whose role is "assistant" exactly when the
    sender is the configured identity 'Mavi – Mosaic', "user" otherwise
    (absent sender included). *)
Theorem C6_role_lookup (messages : list parsed) :
  parse_to_context messages =
  map (fun m => {| role := if bool_decide (sender m = Some MAVI_MOSAIC)
                           then s "assistant" else s "user";
                   content := message m |}) messages.
Proof.
  unfold parse_to_context. apply map_ext. intros m. f_equal.
  unfold dict_get, ASSISTANT_REFERENCE_DICT. destruct (sender m) as [k|].
  - destruct (decide (k = MAVI_MOSAIC)) as [->|Hne].
    + rewrite lookup_singleton_eq. by rewrite bool_decide_eq_true_2.
    + rewrite lookup_singleton_ne by done.
      rewrite bool_decide_eq_false_2; [done|]. by intros [= ->].
  - by rewrite bool_decide_eq_false_2.
Qed.

(** ** C7: the messages table *)

(** *** [csv.reader] reads back what [csv.writer] wrote *)

Lemma csv_feed_app a b p :
  csv_feed (a ++ b) p = match csv_feed a p with None => None | Some q => csv_feed b q end.
Proof.
  revert p. induction a as [|i a IH]; intros p; [done|]. simpl.
  destruct (process_char p i); [apply IH|done].
Qed.

Lemma csv_run_chars l rest p :
  csv_run (map CChar l ++ rest) p =
  match csv_feed (map CChar l) p with None => None | Some q => csv_run rest q end.
Proof.
  revert p. induction l as [|c l IH]; intros p; [done|]. simpl.
  destruct (process_char p (CChar c)); [apply IH|done].
Qed.

(** Reading line by line is reading the stream of their characters, each
    line followed by [EOL]. *)
Lemma csv_rows_run lines p :
  csv_rows lines p =
  (fun rq => rq.1 ++ csv_end rq.2) <$>
    csv_run (flat_map (fun l => map CChar l ++ [EOL]) lines) p.
Proof.
  revert p. induction lines as [|l ls IH]; intros p; simpl.
  - done.
  - rewrite csv_feed_app, <- app_assoc, csv_run_chars.
    destruct (csv_feed (map CChar l) p) as [q|]; [|done]. simpl.
    destruct (process_char q EOL) as [q'|]; [|done]. simpl.
    destruct (ps_state q'); rewrite IH; try done.
    by destruct (csv_run _ fresh_parser) as [[rows r]|].
Qed.

Lemma file_lines_events text cur :
  CR ∉ text -> last text = Some LF \/ (text = [] /\ cur = []) ->
  flat_map (fun l => map CChar l ++ [EOL]) (file_lines cur text) = map CChar cur ++ csv_events text.
Proof.
  revert cur. induction text as [|c t IH]; intros cur Hcr Hl; simpl.
  - destruct Hl as [Hl|[_ ->]]; [discriminate|done].
  - apply not_elem_of_cons in Hcr as [Hc Ht].
    destruct (c =? LF) eqn:E.
    + apply N.eqb_eq in E as ->. simpl. rewrite map_app, <- app_assoc. simpl.
      rewrite IH; [by rewrite <- app_assoc|done|].
      destruct t as [|d t']; [by right|left].
      destruct Hl as [Hl|[? _]]; [|discriminate]. by rewrite last_cons_cons in Hl.
    + destruct (c =? CR) eqn:E'; [apply N.eqb_eq in E'; congruence|].
      rewrite IH; [|done|].
      * rewrite map_app, <- app_assoc. done.
      * destruct t as [|d t'].
        -- destruct Hl as [Hl|[? _]]; [|discriminate]. simpl in Hl. injection Hl as ->.
           by rewrite N.eqb_refl in E.
        -- left. destruct Hl as [Hl|[? _]]; [|discriminate]. by rewrite last_cons_cons in Hl.
Qed.

Lemma csv_events_app a b : csv_events (a ++ b) = csv_events a ++ csv_events b.
Proof. unfold csv_events. by rewrite flat_map_app. Qed.

(** A character that [csv.writer] copies as it is and [csv.reader] adds to an
    unquoted field. *)
Definition plain_char (c : N) : Prop := c <> LF /\ c <> CR /\ c <> COMMA /\ c <> DQUOTE.

Ltac csv_neq :=
  repeat match goal with
  | H : ?c <> ?d |- context [?c =? ?d] => rewrite (proj2 (N.eqb_neq c d) H)
  end.

Lemma plain_events c : plain_char c -> csv_events [c] = [CChar c].
Proof. intros (H1 & _). unfold csv_events. simpl. by csv_neq. Qed.

Lemma csv_run_char c rest p :
  csv_run (CChar c :: rest) p =
  match process_char p (CChar c) with None => None | Some q => csv_run rest q end.
Proof. simpl. by destruct (process_char p (CChar c)). Qed.

Lemma add_char_ok p st c :
  (N.of_nat (length (ps_field p)) < FIELD_LIMIT)%N ->
  add_char p st c = Some {| ps_state := st; ps_fields := ps_fields p; ps_field := ps_field p ++ [c] |}.
Proof. intros Hl. unfold add_char. by rewrite (proj2 (N.leb_gt _ _) Hl). Qed.

Lemma step_in_field c a F :
  plain_char c -> (N.of_nat (length a) < FIELD_LIMIT)%N ->
  process_char {| ps_state := IN_FIELD; ps_fields := F; ps_field := a |} (CChar c) =
  Some {| ps_state := IN_FIELD; ps_fields := F; ps_field := a ++ [c] |}.
Proof.
  intros (H1 & H2 & H3 & H4) Hl. unfold process_char, is_crlf. cbn [ps_state].
  rewrite (proj2 (N.eqb_neq c LF) H1), (proj2 (N.eqb_neq c CR) H2), (proj2 (N.eqb_neq c COMMA) H3).
  by apply add_char_ok.
Qed.

Lemma step_quoted c a F :
  c <> DQUOTE -> (N.of_nat (length a) < FIELD_LIMIT)%N ->
  process_char {| ps_state := IN_QUOTED_FIELD; ps_fields := F; ps_field := a |} (CChar c) =
  Some {| ps_state := IN_QUOTED_FIELD; ps_fields := F; ps_field := a ++ [c] |}.
Proof.
  intros H Hl. unfold process_char. cbn [ps_state].
  rewrite (proj2 (N.eqb_neq c DQUOTE) H). by apply add_char_ok.
Qed.

Lemma csv_unquoted cs a F rest :
  Forall plain_char cs -> (N.of_nat (length a + length cs) <= FIELD_LIMIT)%N ->
  csv_run (csv_events cs ++ rest) {| ps_state := IN_FIELD; ps_fields := F; ps_field := a |} =
  csv_run rest {| ps_state := IN_FIELD; ps_fields := F; ps_field := a ++ cs |}.
Proof.
  revert a. induction cs as [|c cs IH]; intros a Hp Hl.
  - by rewrite app_nil_r.
  - apply Forall_cons in Hp as [Hc Hp]. cbn [length] in Hl.
    change (c :: cs) with ([c] ++ cs). rewrite csv_events_app, plain_events by done.
    simpl. rewrite step_in_field by (done || lia).
    rewrite IH; [by rewrite <- app_assoc|done|]. rewrite length_app. simpl. lia.
Qed.

Definition dbl_quote (c : N) : pystr := if c =? DQUOTE then [DQUOTE; DQUOTE] else [c].

Lemma csv_quoted x a F rest :
  CR ∉ x -> (N.of_nat (length a + length x) <= FIELD_LIMIT)%N ->
  csv_run (csv_events (flat_map dbl_quote x) ++ rest)
    {| ps_state := IN_QUOTED_FIELD; ps_fields := F; ps_field := a |} =
  csv_run rest {| ps_state := IN_QUOTED_FIELD; ps_fields := F; ps_field := a ++ x |}.
Proof.
  revert a. induction x as [|c x IH]; intros a Hcr Hl.
  - by rewrite app_nil_r.
  - apply not_elem_of_cons in Hcr as [Hc Hcr]. cbn [length] in Hl.
    cbn [flat_map]. rewrite csv_events_app, <- app_assoc.
    assert (Hlt : (N.of_nat (length a) < FIELD_LIMIT)%N) by lia.
    assert (Hstep : forall R,
      csv_run (csv_events (dbl_quote c) ++ R) {| ps_state := IN_QUOTED_FIELD; ps_fields := F; ps_field := a |} =
      csv_run R {| ps_state := IN_QUOTED_FIELD; ps_fields := F; ps_field := a ++ [c] |}).
    { intros R. unfold dbl_quote. destruct (c =? DQUOTE) eqn:Eq.
      - apply N.eqb_eq in Eq as ->. reflexivity || (unfold csv_events; simpl;
          unfold process_char, add_char; simpl; rewrite (proj2 (N.leb_gt _ _) Hlt); reflexivity).
      - apply N.eqb_neq in Eq. destruct (decide (c = LF)) as [->|Hn].
        + change (csv_events [LF] ++ R) with (CChar LF :: EOL :: R).
          rewrite csv_run_char, step_quoted by done. reflexivity.
        + unfold csv_events. simpl. rewrite (proj2 (N.eqb_neq c LF) Hn). simpl.
          rewrite step_quoted by done. reflexivity. }
    rewrite Hstep, IH; [by rewrite <- app_assoc|done|]. rewrite length_app. simpl. lia.
Qed.

Lemma needs_quotes_false x : csv_needs_quotes x = false -> CR ∉ x -> Forall plain_char x.
Proof.
  induction x as [|c x IH]; intros Hq Hcr; [constructor|].
  apply not_elem_of_cons in Hcr as [Hc Hcr].
  unfold csv_needs_quotes in Hq. simpl in Hq.
  apply orb_false_iff in Hq as [Hq1 Hq].
  apply orb_false_iff in Hq1 as [Hq1 Hq3]. apply orb_false_iff in Hq1 as [Hq1 Hq2].
  apply N.eqb_neq in Hq1, Hq2, Hq3.
  constructor; [unfold plain_char; done|]. by apply IH.
Qed.

(** After one field, read from the start of a field. *)
Definition after_field (S0 : csv_state) (x : pystr) (q : csv_parser) : Prop :=
  ps_state q = IN_FIELD \/ ps_state q = QUOTE_IN_QUOTED_FIELD \/ (x = [] /\ ps_state q = S0).

Lemma csv_field_read x p rest :
  csv_safe x -> ps_field p = [] -> ps_state p = START_RECORD \/ ps_state p = START_FIELD ->
  exists q, csv_run (csv_events (csv_quote_field x) ++ rest) p = csv_run rest q /\
    ps_fields q = ps_fields p /\ ps_field q = x /\ after_field (ps_state p) x q.
Proof.
  intros [Hcr Hl] Hf Hs. destruct p as [st F fld]; simpl in *; subst fld.
  unfold csv_quote_field. destruct (csv_needs_quotes x) eqn:Hq.
  - exists {| ps_state := QUOTE_IN_QUOTED_FIELD; ps_fields := F; ps_field := x |}.
    split; [|split; [done|split; [done|right; left; done]]].
    change (DQUOTE :: flat_map (fun c => if c =? DQUOTE then [DQUOTE; DQUOTE] else [c]) x ++ [DQUOTE])
      with ([DQUOTE] ++ flat_map dbl_quote x ++ [DQUOTE]).
    rewrite !csv_events_app, <- !app_assoc.
    change (csv_events [DQUOTE] ++ ?r) with (CChar DQUOTE :: r).
    rewrite csv_run_char.
    replace (process_char _ (CChar DQUOTE))
      with (Some {| ps_state := IN_QUOTED_FIELD; ps_fields := F; ps_field := [] |})
      by (destruct Hs as [-> | ->]; reflexivity).
    rewrite csv_quoted by (done || (simpl; lia)). reflexivity.
  - pose proof (needs_quotes_false x Hq Hcr) as Hp.
    destruct x as [|c cs].
    + eexists. split; [reflexivity|]. split; [done|split; [done|right; right; done]].
    + apply Forall_cons in Hp as [Hc Hp]. pose proof Hc as (H1 & H2 & H3 & H4).
      exists {| ps_state := IN_FIELD; ps_fields := F; ps_field := c :: cs |}.
      split; [|split; [done|split; [done|left; done]]].
      change (c :: cs) with ([c] ++ cs). rewrite !csv_events_app, <- app_assoc, plain_events by done.
      change ([CChar c] ++ ?r) with (CChar c :: r). rewrite csv_run_char.
      replace (process_char _ (CChar c))
        with (Some {| ps_state := IN_FIELD; ps_fields := F; ps_field := [c] |}).
      * rewrite csv_unquoted; [reflexivity|done|]. simpl in Hl |- *. lia.
      * unfold process_char, start_field, is_crlf, add_char.
        destruct Hs as [-> | ->]; cbn [ps_state ps_field ps_fields];
          rewrite (proj2 (N.eqb_neq c LF) H1), (proj2 (N.eqb_neq c CR) H2),
            (proj2 (N.eqb_neq c DQUOTE) H4), (proj2 (N.eqb_neq c COMMA) H3); reflexivity.
Qed.

Lemma csv_after_comma S0 x q rest :
  after_field S0 x q -> (S0 = START_RECORD \/ S0 = START_FIELD) ->
  csv_run (CChar COMMA :: rest) q =
  csv_run rest {| ps_state := START_FIELD; ps_fields := ps_fields q ++ [ps_field q]; ps_field := [] |}.
Proof.
  intros Hq HS. destruct q as [st F fld]. simpl.
  destruct Hq as [Hq|[Hq|[_ Hq]]]; simpl in Hq; subst st; [reflexivity|reflexivity|].
  destruct HS as [-> | ->]; reflexivity.
Qed.

Lemma csv_after_last S0 x q rest :
  after_field S0 x q -> S0 = START_FIELD \/ x <> [] ->
  csv_run (CChar LF :: EOL :: rest) q =
  (fun rq => ((ps_fields q ++ [ps_field q]) :: rq.1, rq.2)) <$> csv_run rest fresh_parser.
Proof.
  intros Hq HS. destruct q as [st F fld].
  destruct Hq as [Hq|[Hq|[Hx Hq]]]; simpl in Hq; subst st; try reflexivity.
  destruct HS as [-> | HS]; [reflexivity|done].
Qed.

Lemma csv_record_read xs x p rest :
  Forall csv_safe (x :: xs) -> ps_field p = [] ->
  ps_state p = START_FIELD \/ (ps_state p = START_RECORD /\ (x <> [] \/ xs <> [])) ->
  csv_run (csv_events (join [COMMA] (map csv_quote_field (x :: xs))) ++ CChar LF :: EOL :: rest) p =
  (fun rq => ((ps_fields p ++ x :: xs) :: rq.1, rq.2)) <$> csv_run rest fresh_parser.
Proof.
  revert x p. induction xs as [|y ys IH]; intros x p Hs Hf Hst;
    apply Forall_cons in Hs as [Hx Hs].
  - destruct (csv_field_read x p (CChar LF :: EOL :: rest) Hx Hf) as (q & Hrun & HF & Hfld & Haf);
      [destruct Hst as [H|[H _]]; auto|].
    simpl. rewrite Hrun.
    rewrite (csv_after_last (ps_state p) x q rest Haf).
    + by rewrite HF, Hfld.
    + destruct Hst as [H|[_ [H|H]]]; auto.
  - replace (join [COMMA] (map csv_quote_field (x :: y :: ys)))
      with (csv_quote_field x ++ [COMMA] ++ join [COMMA] (map csv_quote_field (y :: ys)))
      by reflexivity.
    rewrite !csv_events_app, <- !app_assoc.
    change (csv_events [COMMA] ++ ?r) with (CChar COMMA :: r).
    destruct (csv_field_read x p (CChar COMMA :: csv_events (join [COMMA] (map csv_quote_field (y :: ys)))
               ++ CChar LF :: EOL :: rest) Hx Hf) as (q & Hrun & HF & Hfld & Haf);
      [destruct Hst as [H|[H _]]; auto|].
    rewrite Hrun.
    rewrite (csv_after_comma (ps_state p) x q) by (done || (destruct Hst as [H|[H _]]; auto)).
    rewrite IH by (done || (simpl; left; done)). simpl. rewrite HF, Hfld, <- app_assoc. done.
Qed.

Lemma join_comma_nil l : join [COMMA] l = [] -> l = [] \/ l = [[]].
Proof.
  destruct l as [|x [|y l]]; simpl; [auto|intros ->; auto|].
  intros H. apply (f_equal length) in H. rewrite !length_app in H. simpl in H. lia.
Qed.

Lemma csv_quote_field_nil x : csv_quote_field x = [] -> x = [].
Proof. unfold csv_quote_field. destruct (csv_needs_quotes x); [discriminate|done]. Qed.

Lemma csv_row_read r rest :
  Forall csv_safe r ->
  csv_run (csv_events (csv_writerow r) ++ rest) fresh_parser =
  (fun rq => (r :: rq.1, rq.2)) <$> csv_run rest fresh_parser.
Proof.
  intros Hs. unfold csv_writerow.
  destruct r as [|x xs].
  - reflexivity.
  - case_bool_decide as Hnil.
    + destruct Hnil as [_ Hnil]. apply join_comma_nil in Hnil as [Hn|Hn]; [discriminate|].
      destruct xs; [|discriminate]. injection Hn as Hn. apply csv_quote_field_nil in Hn as ->.
      reflexivity.
    + rewrite csv_events_app, <- app_assoc.
      change (csv_events [LF] ++ rest) with (CChar LF :: EOL :: rest).
      rewrite csv_record_read; [done|done|done|].
      right. split; [done|].
      destruct (decide (x = [])) as [->|Hx]; [|by left].
      destruct xs; [|by right]. exfalso. apply Hnil. split; [done|]. reflexivity.
Qed.

Lemma join_no_cr l : Forall (fun x => CR ∉ x) l -> CR ∉ join [COMMA] l.
Proof.
  induction 1 as [|x l Hx _ IH]; [apply not_elem_of_nil|].
  destruct l as [|y l]; [exact Hx|].
  change (join [COMMA] (x :: y :: l)) with (x ++ [COMMA] ++ join [COMMA] (y :: l)).
  rewrite !elem_of_app, list_elem_of_singleton. intros [H|[H|H]]; [done|discriminate|done].
Qed.

Lemma elem_of_flat_map {A B} (f : A -> list B) l y :
  y ∈ flat_map f l <-> exists x, x ∈ l /\ y ∈ f x.
Proof.
  rewrite list_elem_of_In, in_flat_map.
  split; intros (x & H1 & H2); exists x; rewrite ?list_elem_of_In in *; auto.
Qed.

Lemma csv_writerow_no_cr r : Forall csv_safe r -> CR ∉ csv_writerow r.
Proof.
  intros Hs. unfold csv_writerow.
  assert (Hj : CR ∉ join [COMMA] (map csv_quote_field r)).
  { apply join_no_cr. apply Forall_fmap. eapply Forall_impl; [exact Hs|].
    intros x [Hcr _]. unfold compose, csv_quote_field. destruct (csv_needs_quotes x); [|exact Hcr].
    rewrite elem_of_cons, elem_of_app, list_elem_of_singleton, elem_of_flat_map.
    intros [H|[(c & Hin & Hc)|H]]; [discriminate| |discriminate].
    destruct (c =? DQUOTE).
    - rewrite elem_of_cons, list_elem_of_singleton in Hc. destruct Hc as [H|H]; discriminate.
    - apply list_elem_of_singleton in Hc. subst c. done. }
  case_bool_decide as Hb; rewrite elem_of_app, list_elem_of_singleton.
  - rewrite elem_of_cons, list_elem_of_singleton. intros [[H|H]|H]; discriminate.
  - intros [H|H]; [done|discriminate].
Qed.

Lemma csv_writerows_shape tbl :
  last (flat_map csv_writerow tbl) = Some LF \/ flat_map csv_writerow tbl = [].
Proof.
  induction tbl as [|r tbl IH]; simpl; [by right|]. left.
  rewrite last_app. destruct IH as [-> | ->]; [done|].
  unfold csv_writerow. by rewrite last_snoc.
Qed.

(** [csv.reader] reads back the rows [csv.writer] wrote, as long as no field
    holds [\r] or is longer than the field limit. *)
Lemma csv_read_writerows tbl :
  Forall (Forall csv_safe) tbl -> csv_read (flat_map csv_writerow tbl) = Some tbl.
Proof.
  intros Hs. unfold csv_read. rewrite csv_rows_run.
  rewrite file_lines_events.
  2:{ rewrite elem_of_flat_map. intros (r & Hr & Hc). rewrite Forall_forall in Hs.
      exact (csv_writerow_no_cr r (Hs r Hr) Hc). }
  2:{ destruct (csv_writerows_shape tbl) as [H|H]; [by left|by right]. }
  simpl. assert (Hrun : csv_run (csv_events (flat_map csv_writerow tbl)) fresh_parser = Some (tbl, fresh_parser)).
  { induction Hs as [|r tbl Hr _ IH]; [done|]. simpl. rewrite csv_events_app, csv_row_read by done.
    by rewrite IH. }
  rewrite Hrun. simpl. by rewrite app_nil_r.
Qed.

Lemma write_messages_rows rows :
  write_messages_to_csv rows = flat_map csv_writerow (EXPECTED_MESSAGES :: map message_row rows).
Proof. unfold write_messages_to_csv. simpl. f_equal. induction rows; simpl; congruence. Qed.

Lemma write_context_rows ctx :
  write_context_to_csv ctx = flat_map csv_writerow (EXPECTED_CONTEXT :: map context_row ctx).
Proof. unfold write_context_to_csv. simpl. f_equal. induction ctx; simpl; congruence. Qed.

Lemma expected_messages_safe : Forall csv_safe EXPECTED_MESSAGES.
Proof.
  apply (bool_decide_unpack _). vm_compute. exact I.
Qed.

Lemma expected_context_safe : Forall csv_safe EXPECTED_CONTEXT.
Proof.
  apply (bool_decide_unpack _). vm_compute. exact I.
Qed.

Lemma read_message_row_blank (p : parsed) :
  read_message_row (message_row p) = Some (blank_sender_absent p).
Proof.
  destruct p as [d t [[|c x]|] m]; unfold read_message_row, blank_sender_absent; simpl; try done.
Qed.

(** C7 (counterexample): [empty_sender_text] parses to a message whose sender
    is present but empty; the file stores it as an empty field, which reads
    back as an absent sender. And a message holding a lone [\r] is written
    unquoted, so re-reading the file splits its row and fails. *)
Lemma C7_empty_sender_not_preserved :
  map sender (parse_chat empty_sender_text) = [Some []] /\
  read_messages_csv (write_messages_to_csv (parse_chat empty_sender_text)) <>
    Some (parse_chat empty_sender_text) /\
  csv_read (write_messages_to_csv [cr_message]) =
    Some [EXPECTED_MESSAGES; [s "24/07/2025"; s "11:22"; s "Ana"; s "a"]; [s "b"]] /\
  read_messages_csv (write_messages_to_csv [cr_message]) = None.
Proof.
  split; [vm_compute; reflexivity|]. split; [vm_compute; discriminate|].
  split; vm_compute; reflexivity.
Qed.

(** C7 (amended): writing the messages file and re-reading it gives back, for
    each message in order, its date, time and message unchanged and its
    sender with an empty field read as absent (so an absent sender, written
    as an empty field, comes back absent, and so does a present but empty
    one), as long as no field holds [\r] or exceeds the field limit of the
    [csv] module. *)
Theorem C7_table_round_trip (rows : list parsed) :
  Forall (fun p => Forall csv_safe (message_row p)) rows ->
  read_messages_csv (write_messages_to_csv rows) = Some (map blank_sender_absent rows).
Proof.
  intros Hs. unfold read_messages_csv. rewrite write_messages_rows, csv_read_writerows.
  - unfold read_messages_table. rewrite bool_decide_eq_true_2 by done.
    clear Hs. induction rows as [|p ps IH]; [done|]. cbn [map read_message_rows].
    by rewrite read_message_row_blank, IH.
  - constructor; [apply expected_messages_safe|]. by apply Forall_fmap.
Qed.

Lemma C7_table_round_trip_witness :
  Forall (fun p => Forall csv_safe (message_row p)) (parse_chat scenario) /\
  read_messages_csv (write_messages_to_csv (parse_chat scenario)) =
    Some (map blank_sender_absent (parse_chat scenario)).
Proof.
  assert (H : Forall (fun p => Forall csv_safe (message_row p)) (parse_chat scenario)).
  { apply (bool_decide_unpack _). vm_compute. exact I. }
  split; [exact H|]. exact (C7_table_round_trip _ H).
Defined.

(** ** C8: the API client *)

Lemma post_and_decode_outcome post req :
  (post_and_decode post req).1 = [req] /\
  (forall e, post req = inl e -> (post_and_decode post req).2 = inl e) /\
  (forall resp data, post req = inr resp -> resp_json resp = Some data ->
     (post_and_decode post req).2 =
     if (400 <=? status_code resp)%Z then inl (RuntimeError (json_dumps 0 data)) else inr data) /\
  (forall resp, post req = inr resp -> resp_json resp = None ->
     (post_and_decode post req).2 =
     inl (match raise_for_status resp with Some e => e | None => JSONDecodeError end)).
Proof.
  unfold post_and_decode; simpl. split; [done|]. split; [by intros e ->|]. split.
  - intros resp data -> ->. done.
  - intros resp -> ->. by destruct (raise_for_status resp).
Qed.

(** C8 (counterexample): with a key set and a 400 answer, [call_anthropic]
    raises a [RuntimeError] holding the body re-serialised with [indent=2],
    not the body as received. *)
Lemma C8_error_body_reformatted :
  (call_anthropic (fun _ => Some (s "k")) (fun _ => inr error_response) JNull).2 =
    inl (RuntimeError (s "{" ++ [LF] ++ s "  " ++ dq ++ s "type" ++ dq ++ s ": " ++
                       dq ++ s "error" ++ dq ++ [LF] ++ s "}")) /\
  s "{" ++ [LF] ++ s "  " ++ dq ++ s "type" ++ dq ++ s ": " ++ dq ++ s "error" ++ dq ++
    [LF] ++ s "}" <> resp_text error_response.
Proof. split; [vm_compute; reflexivity|vm_compute; discriminate]. Qed.

(** C8 (amended): [call_anthropic] and [call_gpt] raise [EnvironmentError]
    without any network call when their key variable ([AT_KEY], [OAI_KEY]) is
    unset or empty; otherwise they send exactly one request, without retry, and
    then: a transport error propagates; a JSON body with status >= 400 raises
    [RuntimeError] holding [json.dumps(body, indent=2)]; a JSON body with a
    lower status is returned decoded; a body that is not JSON raises
    [HTTPError] (status, reason, the response attached) for status 400-599 and
    the decoding error otherwise. *)
Theorem C8_client_outcomes getenv post payload messages system model max_tokens temperature :
  let contract (call : list request * (exn + json)) (key : option pystr) :=
    ((key = None \/ key = Some []) -> exists msg, call = ([], inl (EnvironmentError msg))) /\
    (forall k, key = Some k -> k <> [] ->
      exists req, call.1 = [req] /\
      (forall e, post req = inl e -> call.2 = inl e) /\
      (forall resp data, post req = inr resp -> resp_json resp = Some data ->
         call.2 = if (400 <=? status_code resp)%Z
                  then inl (RuntimeError (json_dumps 0 data)) else inr data) /\
      (forall resp, post req = inr resp -> resp_json resp = None ->
         call.2 = inl (match raise_for_status resp with Some e => e | None => JSONDecodeError end)))
  in
  contract (call_anthropic getenv post payload) (getenv (s "AT_KEY")) /\
  contract (call_gpt getenv post messages system model max_tokens temperature) (getenv (s "OAI_KEY")).
Proof.
  intros contract. unfold contract, call_anthropic, call_gpt.
  split; split.
  - intros [-> | ->]; eauto.
  - intros k -> Hk. destruct k as [|c k]; [done|].
    eexists. apply post_and_decode_outcome.
  - intros [-> | ->]; eauto.
  - intros k -> Hk. destruct k as [|c k]; [done|].
    eexists. apply post_and_decode_outcome.
Qed.

(** ** C9: the batch runs *)

Lemma processed_files_app a b : processed_files (a ++ b) = processed_files a ++ processed_files b.
Proof. induction a as [|[] a IH]; simpl; by rewrite ?IH. Qed.

Lemma processed_files_sent l : processed_files (map Sent l) = [].
Proof. by induction l. Qed.

Ltac pf_simpl := simpl; rewrite ?processed_files_app, ?processed_files_sent; simpl.

Lemma process_csv_files_outcome w args cf todo :
  ((process_csv_files w args cf todo).2 = None /\
   processed_files (process_csv_files w args cf todo).1 = todo /\
   (forall f e, f ∈ todo -> ~ send_print_error w args f e)) \/
  (exists pre f post e, todo = pre ++ f :: post /\
   processed_files (process_csv_files w args cf todo).1 = pre ++ [f] /\
   (forall g e', g ∈ pre -> ~ send_print_error w args g e') /\
   send_print_error w args f e /\ (process_csv_files w args cf todo).2 = Some e).
Proof.
  induction todo as [|f rest IH].
  { left. split; [done|]. split; [done|]. intros f e Hf. by apply not_elem_of_nil in Hf. }
  simpl. destruct (process_csv_files w args cf rest) as [tr r] eqn:Erec. simpl in IH.
  (* the files after [f] decide the outcome, [f] being no print error *)
  assert (Hgo : forall ev, processed_files ev = [f] -> (forall e, ~ send_print_error w args f e) ->
    (r = None /\ processed_files (ev ++ tr) = f :: rest /\
     (forall g e, g ∈ f :: rest -> ~ send_print_error w args g e)) \/
    (exists pre g post e, f :: rest = pre ++ g :: post /\ processed_files (ev ++ tr) = pre ++ [g] /\
     (forall h e', h ∈ pre -> ~ send_print_error w args h e') /\
     send_print_error w args g e /\ r = Some e)).
  { intros ev Hev Hnf. rewrite processed_files_app, Hev.
    destruct IH as [(Hr & Ht & Hn) | (pre & g & post & e & -> & Ht & Hn & Hg & Hr)].
    - left. split; [done|]. split; [by rewrite Ht|].
      intros g e [-> | Hg]%elem_of_cons; [apply Hnf|by apply Hn].
    - right. exists (f :: pre), g, post, e. split; [done|]. split; [by rewrite Ht|].
      split; [|done]. intros h e' [-> | Hh]%elem_of_cons; [apply Hnf|by apply Hn]. }
  destruct (read_csv_file w f) as [e1|ms] eqn:Er.
  { apply (Hgo [Processing f; Reported f e1]); [done|]. intros e (ms & cd & gd & Hr & _). congruence. }
  destruct (a_dry_run args) eqn:Ed.
  { apply (Hgo [Processing f; PayloadShown f]); [done|].
    intros e (ms' & cd & gd & Hr & Hd & _). congruence. }
  destruct (call_anthropic _ _ _) as [sent1 [e1|cd]] eqn:Ea.
  { apply (Hgo (Processing f :: map Sent sent1 ++ [Reported f e1]));
      [pf_simpl; done|].
    intros e (ms' & cd & gd & Hr & _ & Ha & _). rewrite Er in Hr. injection Hr as <-.
    rewrite Ea in Ha. discriminate. }
  destruct (call_gpt _ _ _ _ _ _ _) as [sent2 [e2|gd]] eqn:Eg.
  { apply (Hgo (Processing f :: map Sent (sent1 ++ sent2) ++ [Reported f e2]));
      [pf_simpl; done|].
    intros e (ms' & cd' & gd & Hr & _ & Ha & Hg & _). rewrite Er in Hr. injection Hr as <-.
    rewrite Eg in Hg. discriminate. }
  destruct (pretty_print_response w f cd gd) as [e|] eqn:Ep.
  - right. exists [], f, rest, e. simpl.
    split; [done|]. split; [by rewrite processed_files_sent|].
    split; [intros g e' Hg; by apply not_elem_of_nil in Hg|]. split; [|done].
    exists ms, cd, gd. rewrite Ea, Eg. done.
  - apply (Hgo (Processing f :: map Sent (sent1 ++ sent2) ++ [Replied f] ++
                 (if bool_decide (last cf = Some f) then [] else [Slept]))).
    + pf_simpl. by case_bool_decide.
    + intros e (ms' & cd' & gd' & Hr & _ & Ha & Hg & Hp). rewrite Er in Hr. injection Hr as <-.
      rewrite Ea in Ha. rewrite Eg in Hg. simpl in Ha, Hg. injection Ha as <-. injection Hg as <-.
      congruence.
Qed.

Lemma process_csv_files_reports w args cf todo f e :
  f ∈ processed_files (process_csv_files w args cf todo).1 -> send_file_error w args f e ->
  Reported f e ∈ (process_csv_files w args cf todo).1.
Proof.
  intros Hin Herr. induction todo as [|g rest IH]; simpl in *; [by apply not_elem_of_nil in Hin|].
  destruct (process_csv_files w args cf rest) as [tr r] eqn:Erec. simpl in IH.
  assert (Hgo : forall ev, processed_files ev = [g] -> (f = g -> Reported f e ∈ ev) ->
    f ∈ processed_files (ev ++ tr) -> Reported f e ∈ ev ++ tr).
  { intros ev Hev Hh. rewrite processed_files_app, Hev, elem_of_app.
    intros [->%list_elem_of_singleton | Ht]; apply elem_of_app; [left; by apply Hh|right; by apply IH]. }
  destruct Herr as [Hr | (ms & Hr & Hd & Hc)].
  - destruct (read_csv_file w g) as [e1|ms] eqn:Er.
    + apply (Hgo [Processing g; Reported g e1]); [done| |done]. intros ->. rewrite Er in Hr. injection Hr as ->.
      rewrite elem_of_cons, list_elem_of_singleton. by right.
    + (* [g] is read: [f] is another file *)
      assert (Hfg : f <> g) by congruence.
      destruct (a_dry_run args).
      { apply (Hgo [Processing g; PayloadShown g]); [done|done|done]. }
      destruct (call_anthropic _ _ _) as [sent1 [e1|cd]].
      { apply (Hgo (Processing g :: map Sent sent1 ++ [Reported g e1]));
          [pf_simpl; done|done|done]. }
      destruct (call_gpt _ _ _ _ _ _ _) as [sent2 [e2|gd]].
      { apply (Hgo (Processing g :: map Sent (sent1 ++ sent2) ++ [Reported g e2]));
          [pf_simpl; done|done|done]. }
      destruct (pretty_print_response w g cd gd).
      * simpl in Hin. rewrite processed_files_sent in Hin.
        apply list_elem_of_singleton in Hin. done.
      * apply (Hgo (Processing g :: map Sent (sent1 ++ sent2) ++ [Replied g] ++
                 (if bool_decide (last cf = Some g) then [] else [Slept]))); [|done|done].
        pf_simpl. by case_bool_decide.
  - destruct (read_csv_file w g) as [e1|ms'] eqn:Er.
    { apply (Hgo [Processing g; Reported g e1]); [done| |done]. intros ->. congruence. }
    destruct (decide (f = g)) as [->|Hfg].
    + rewrite Er in Hr. injection Hr as <-. rewrite Hd in Hin |- *.
      destruct (call_anthropic _ _ _) as [sent1 [e1|cd]] eqn:Ea.
      * apply (Hgo (Processing g :: map Sent sent1 ++ [Reported g e1]));
          [pf_simpl; done| |done].
        intros _. destruct Hc as [Hc | (cd & Hc & _)]; rewrite ?Ea in Hc; simpl in Hc; [|discriminate].
        injection Hc as ->. apply elem_of_cons. right. apply elem_of_app. right. by left.
      * destruct (call_gpt _ _ _ _ _ _ _) as [sent2 [e2|gd]] eqn:Eg.
        -- apply (Hgo (Processing g :: map Sent (sent1 ++ sent2) ++ [Reported g e2]));
             [pf_simpl; done| |done].
           intros _. destruct Hc as [Hc | (cd' & _ & Hc)]; [rewrite ?Ea in Hc; simpl in Hc; discriminate|].
           rewrite ?Eg in Hc. simpl in Hc. injection Hc as ->.
           apply elem_of_cons. right. apply elem_of_app. right. by left.
        -- exfalso. destruct Hc as [Hc | (cd' & _ & Hc)]; [rewrite ?Ea in Hc|rewrite ?Eg in Hc];
             simpl in Hc; discriminate.
    + destruct (a_dry_run args).
      { apply (Hgo [Processing g; PayloadShown g]); [done|done|done]. }
      destruct (call_anthropic _ _ _) as [sent1 [e1|cd]].
      { apply (Hgo (Processing g :: map Sent sent1 ++ [Reported g e1]));
          [pf_simpl; done|done|done]. }
      destruct (call_gpt _ _ _ _ _ _ _) as [sent2 [e2|gd]].
      { apply (Hgo (Processing g :: map Sent (sent1 ++ sent2) ++ [Reported g e2]));
          [pf_simpl; done|done|done]. }
      destruct (pretty_print_response w g cd gd).
      * simpl in Hin. rewrite processed_files_sent in Hin.
        apply list_elem_of_singleton in Hin. done.
      * apply (Hgo (Processing g :: map Sent (sent1 ++ sent2) ++ [Replied g] ++
                 (if bool_decide (last cf = Some g) then [] else [Slept]))); [|done|done].
        pf_simpl. by case_bool_decide.
Qed.

Lemma v2_process_stops w pre f post e :
  (forall g, g ∈ pre -> v2_succeeds_on w g) -> v2_fails_on w f e ->
  (v2_process w (pre ++ f :: post)).2 = Some e /\
  processed_files (v2_process w (pre ++ f :: post)).1 = map p_name (pre ++ [f]).
Proof.
  induction pre as [|g pre IH]; intros Hs Hf; cbn [v2_process app].
  - destruct Hf as [Hr | (raw & Hr & [Hw1 | [Hw1 Hw2]])]; rewrite Hr; [done| |].
    + by rewrite Hw1.
    + by rewrite Hw1, Hw2.
  - destruct (Hs g (list_elem_of_here _ _)) as (raw & Hr & Hw1 & Hw2).
    rewrite Hr, Hw1, Hw2.
    destruct (IH (fun h Hh => Hs h (list_elem_of_further _ _ _ Hh)) Hf) as [H1 H2].
    destruct (v2_process w (pre ++ f :: post)) as [tr r]. simpl in *. by rewrite H1, H2.
Qed.

(** C9 (counterexample): two input files, the first of which cannot be decoded:
    the run stops on it with an uncaught error (status 1) and the second file
    is never processed. *)
Lemma C9_unreadable_file_ends_run :
  length (get_files_names [(txt_path "bad", true); (txt_path "good", true)]) = 2%nat /\
  v2_main one_bad_file_world [(txt_path "bad", true); (txt_path "good", true)] =
    ([Processing (s "bad.txt")], Uncaught UnicodeDecodeError) /\
  exit_status (Uncaught UnicodeDecodeError) = 1%Z.
Proof. split; [vm_compute; reflexivity|]. split; [vm_compute; reflexivity|reflexivity]. Qed.

(** C9 (amended): [send_context_to_claude.main] returns 1 when the folder is
    missing or holds no CSV file. Otherwise every file is processed in turn;
    a file that cannot be read or has no usable row, and an error of its
    Claude or GPT call, is reported and the file skipped, and the run goes
    on; the run returns 0 unless printing or exporting the replies of a file
    raises, which ends the run at the first such file with that exception
    (status 1). [conversation_to_context_v2.main] catches nothing: with no
    input file it does nothing and exits with status 0; the first input file
    that cannot be read, or one of whose two tables cannot be written, ends
    the run there with that exception, the later files not being started. *)
Theorem C9_batch_runs (w : send_world) (args : send_args) (folder_exists : bool)
    (csv_files : list pystr) (vw : v2_world) (entries : list (path * bool)) :
  ((folder_exists = false \/ csv_files = []) ->
     (send_main w args folder_exists csv_files).2 = Exit 1) /\
  (folder_exists = true -> csv_files <> [] ->
     let tr := (send_main w args folder_exists csv_files).1 in
     let o := (send_main w args folder_exists csv_files).2 in
     ((o = Exit 0 /\ processed_files tr = csv_files /\
       (forall f e, f ∈ csv_files -> ~ send_print_error w args f e)) \/
      (exists pre f post e, csv_files = pre ++ f :: post /\ processed_files tr = pre ++ [f] /\
       (forall g e', g ∈ pre -> ~ send_print_error w args g e') /\
       send_print_error w args f e /\ o = Uncaught e)) /\
     (forall f e, f ∈ processed_files tr -> send_file_error w args f e -> Reported f e ∈ tr)) /\
  (get_files_names entries = [] -> v2_main vw entries = ([], Exit 0)) /\
  (forall pre f post e, get_files_names entries = pre ++ f :: post ->
     (forall g, g ∈ pre -> v2_succeeds_on vw g) -> v2_fails_on vw f e ->
     (v2_main vw entries).2 = Uncaught e /\
     processed_files (v2_main vw entries).1 = map p_name (pre ++ [f])).
Proof.
  unfold send_main, v2_main. split; [|split; [|split]].
  - intros [-> | ->]; [done|]. by destruct folder_exists.
  - intros -> Hne. destruct csv_files as [|f0 rest0]; [done|]. cbv zeta.
    pose proof (process_csv_files_outcome w args (f0 :: rest0) (f0 :: rest0)) as Ho.
    pose proof (process_csv_files_reports w args (f0 :: rest0) (f0 :: rest0)) as Hrep.
    destruct (process_csv_files w args (f0 :: rest0) (f0 :: rest0)) as [tr r]. simpl in *.
    split; [|exact Hrep].
    destruct Ho as [(-> & Ht & Hn) | (pre & f & post & e & Hc & Ht & Hn & Hf & ->)].
    + left. done.
    + right. exists pre, f, post, e. done.
  - intros ->. done.
  - intros pre f post e -> Hs Hf.
    destruct (v2_process_stops vw pre f post e Hs Hf) as [H1 H2].
    destruct (v2_process vw (pre ++ f :: post)) as [tr r]. simpl in *. by subst r.
Qed.

(** ** C10: the messages read for the API *)

Lemma read_rows_filter_map rows :
  read_rows rows = map read_row (filter (fun row => strip (row_get row (s "content")) <> []) rows).
Proof.
  induction rows as [|row rows IH]; [done|]. simpl. rewrite filter_cons.
  case_bool_decide as Hc; case_decide; try done; simpl; by rewrite IH.
Qed.

Lemma read_rows_wellformed rows :
  Forall (fun m => (role m = s "user" \/ role m = s "assistant") /\ content m <> []) (read_rows rows).
Proof.
  induction rows as [|row rows IH]; simpl; [constructor|].
  case_bool_decide as Hc; [done|]. constructor; [|done]. simpl.
  split; [|done]. case_bool_decide; auto.
Qed.

Lemma read_rows_blank rows :
  Forall (fun row => strip (row_get row (s "content")) = []) rows -> read_rows rows = [].
Proof.
  induction 1 as [|row rows Hrow _ IH]; [done|]. simpl.
  by rewrite bool_decide_eq_true_2.
Qed.

(** C10: [read_messages_from_csv] keeps, in order, the rows whose content is
    not blank after [strip()], with the content stripped and the role
    "assistant" when the stripped, lower-cased role is "assistant" and "user"
    otherwise; it raises [ValueError] when no row is kept (and when a column is
    missing). So a list it returns, the only one that reaches the API calls, is
    non-empty, each role is "user" or "assistant" and each content non-empty. *)
Theorem C10_forwarded_messages_wellformed (r : dict_reader) :
  (has_expected_cols (fieldnames r) = true ->
     read_rows (reader_rows r) =
       map read_row (filter (fun row => strip (row_get row (s "content")) <> []) (reader_rows r))) /\
  (Forall (fun row => strip (row_get row (s "content")) = []) (reader_rows r) ->
     read_messages_from_csv r = inl ValueError) /\
  (forall ms, read_messages_from_csv r = inr ms ->
     ms = read_rows (reader_rows r) /\ ms <> [] /\
     Forall (fun m => (role m = s "user" \/ role m = s "assistant") /\ content m <> []) ms).
Proof.
  split; [|split].
  - intros _. apply read_rows_filter_map.
  - intros Hall. unfold read_messages_from_csv.
    destruct (has_expected_cols _); [|done].
    rewrite read_rows_blank; [done|exact Hall].
  - intros ms. unfold read_messages_from_csv.
    destruct (has_expected_cols _); [|done].
    case_bool_decide as E; [done|]. intros [= <-].
    split; [done|]. split; [done|]. apply read_rows_wellformed.
Qed.

(** [sample_reader] is read to the two kept rows. *)
Lemma C10_forwarded_messages_wellformed_witness :
  has_expected_cols (fieldnames sample_reader) = true /\
  read_messages_from_csv sample_reader =
    inr [{| role := s "assistant"; content := s "hi" |}; {| role := s "user"; content := s "ok" |}] /\
  read_rows (reader_rows sample_reader) =
    map read_row (filter (fun row => strip (row_get row (s "content")) <> []) (reader_rows sample_reader)).
Proof.
  assert (H : has_expected_cols (fieldnames sample_reader) = true) by (vm_compute; reflexivity).
  split; [exact H|]. split; [vm_compute; reflexivity|].
  exact (proj1 (C10_forwarded_messages_wellformed sample_reader) H).
Defined.

(** * Further properties of the code *)

(** ** The fields [parse_chat] produces *)

Lemma match_header_groups x d t r len :
  match_header x = Some (d, t, r, len) -> date_shaped d = true /\ time_shaped t = true.
Proof.
  unfold match_header.
  destruct x as [|d1 [|d2 [|sl1 [|d3 [|d4 [|sl2 [|y1 [|y2 [|y3 [|y4 x1]]]]]]]]]];
    try discriminate.
  destruct (forallb _ _ && _ && _) eqn:E1; [|discriminate].
  destruct (drop_while is_space x1) as [|h1 [|h2 [|col [|n1 [|n2 x3]]]]];
    try discriminate.
  destruct (negb (length (take_while is_space x1) =? 0)%nat &&
            forallb is_digit [h1; h2; n1; n2] && (col =? 58)) eqn:E2; [|discriminate].
  destruct (drop_while is_space x3) as [|dash [|sp x5]]; try discriminate.
  destruct (negb (length (take_while is_space x3) =? 0)%nat && (dash =? 45) && is_space sp);
    [|discriminate].
  intros H. injection H as <- <- _ _. split; [exact E1|].
  apply andb_true_iff in E2 as [E2 E3]. apply andb_true_iff in E2 as [_ E2].
  change (forallb is_digit [h1; h2; n1; n2] && (col =? 58) = true). by rewrite E2, E3.
Qed.

Lemma scan_groups text fuel pos :
  Forall (fun m => date_shaped (m_date m) = true /\ time_shaped (m_time m) = true)
    (scan fuel text pos).
Proof.
  revert pos. induction fuel as [|fuel IH]; intros pos; simpl; [constructor|].
  destruct (if at_bol text pos then match_header (drop pos text) else None)
    as [[[[d t] r] len]|] eqn:Hm; [|apply IH].
  destruct (at_bol text pos); [|discriminate].
  constructor; [|apply IH]. exact (match_header_groups _ _ _ _ _ Hm).
Qed.

Lemma parse_loop_dates text ms (P : pystr -> pystr -> Prop) :
  Forall (fun m => P (m_date m) (m_time m)) ms ->
  Forall (fun p => P (date p) (time p)) (parse_loop text ms).
Proof.
  induction 1 as [|m later Hm _ IH]; simpl; [constructor|].
  destruct (decompose _ _). by constructor.
Qed.

(** X1: every record of [parse_chat] has a date of the form [\d{2}/\d{2}/\d{4}]
    and a time of the form [\d{2}:\d{2}], [\d] being any Unicode decimal
    digit. *)
Theorem parse_chat_date_time_shape (text : pystr) :
  Forall (fun p => date_shaped (date p) = true /\ time_shaped (time p) = true) (parse_chat text).
Proof.
  apply (parse_loop_dates text (finditer text) (fun d t => date_shaped d = true /\ time_shaped t = true)).
  apply scan_groups.
Qed.

Lemma drop_while_idem p l : drop_while p (drop_while p l) = drop_while p l.
Proof.
  induction l as [|c l IH]; simpl; [done|].
  destruct (p c) eqn:E; [done|]. simpl. by rewrite E.
Qed.

Lemma lstrip_head x : lstrip x = [] \/ exists c t, lstrip x = c :: t /\ is_space c = false.
Proof.
  unfold lstrip. induction x as [|c x IH]; simpl; [by left|].
  destruct (is_space c) eqn:E; [done|]. right. eauto.
Qed.

Lemma rstrip_prefix x : rstrip x `prefix_of` x.
Proof.
  unfold rstrip.
  pose proof (rev_suffix_prefix _ _ (drop_while_suffix is_space (rev x))) as H.
  by rewrite rev_involutive in H.
Qed.

(** [strip()] is idempotent. *)
Lemma strip_idem x : strip (strip x) = strip x.
Proof.
  unfold strip. set (u := lstrip x).
  assert (Hl : lstrip (rstrip u) = rstrip u).
  { pose proof (rstrip_prefix u) as Hp.
    destruct (lstrip_head x) as [Hu|(c & t & Hu & Hc)]; fold u in Hu; rewrite Hu in *.
    - reflexivity.
    - destruct (rstrip (c :: t)) as [|c' t'] eqn:Er; [reflexivity|].
      apply prefix_cons_inv_1 in Hp as ->. unfold lstrip. simpl. by rewrite Hc. }
  rewrite Hl. unfold rstrip. by rewrite rev_involutive, drop_while_idem.
Qed.

Lemma split_sender_infix x y m :
  split_sender_and_text x = (Some y, m) ->
  infix y x /\ strip y = y /\ ~ infix COLON_SP y.
Proof.
  unfold split_sender_and_text.
  destruct (split_once COLON_SP x) as [[a b]|] eqn:E; [|discriminate].
  destruct (_ && _); [discriminate|]. intros [= <- _].
  apply split_once_Some in E as [-> Hn]; [|unfold COLON_SP; discriminate].
  split; [|split; [apply strip_idem|]].
  - eapply infix_trans; [apply strip_infix|]. exists [], (COLON_SP ++ b). done.
  - intros Hi. apply Hn. eapply infix_trans; [exact Hi|apply strip_infix].
Qed.

(** What [decompose] returns: neither part holds a [\r]; the message and the
    sender are stripped, and the sender holds no [": "]. *)
Lemma decompose_clean rest body :
  (CR ∉ (decompose rest body).2) /\ strip (decompose rest body).2 = (decompose rest body).2 /\
  (forall y, (decompose rest body).1 = Some y -> (CR ∉ y) /\ strip y = y /\ ~ infix COLON_SP y).
Proof.
  unfold decompose.
  set (full := replace_cr (replace_crlf _)).
  assert (Hf : CR ∉ rstrip_nl full).
  { eapply not_elem_of_infix; [apply prefix_infix, rstrip_nl_prefix|apply replace_cr_no_cr]. }
  destruct (split_sender_and_text (rstrip_nl full)) as [snd msg] eqn:E. simpl.
  split; [|split; [apply strip_idem|]].
  - eapply not_elem_of_infix; [apply strip_infix|].
    eapply not_elem_of_infix; [|exact Hf].
    pose proof (split_message_infix (rstrip_nl full)) as H. by rewrite E in H.
  - intros y ->. destruct (split_sender_infix _ _ _ E) as (Hi & Hs & Hn).
    split; [|done]. eapply not_elem_of_infix; [exact Hi|exact Hf].
Qed.

Lemma parse_loop_decompose text ms :
  Forall (fun p => exists rest body, (sender p, message p) = decompose rest body)
    (parse_loop text ms).
Proof.
  induction ms as [|m later IH]; simpl; [constructor|].
  destruct (decompose (m_rest m) _) as [snd msg] eqn:E. constructor; [|done].
  simpl. eexists _, _. by rewrite E.
Qed.

(** X2: no sender or message of [parse_chat] holds a carriage return, and
    both are stripped of surrounding white space; a sender never contains
    [": "]. *)
Theorem parse_chat_fields_clean (text : pystr) :
  Forall (fun p => (CR ∉ message p) /\ strip (message p) = message p /\
                   forall y, sender p = Some y -> (CR ∉ y) /\ strip y = y /\ ~ infix COLON_SP y)
    (parse_chat text).
Proof.
  eapply Forall_impl; [apply parse_loop_decompose|].
  intros p (rest & body & E).
  destruct (decompose_clean rest body) as (H1 & H2 & H3).
  rewrite <- E in H1, H2, H3. simpl in *. auto.
Qed.

(** ** [main] of [conversation_to_context_v2.py] *)

Lemma v2_process_ok w (raw : path -> pystr) l :
  (forall f, f ∈ l -> v_read_text w f = inr (raw f)) ->
  (forall p tbl, v_write_csv w p tbl = None) ->
  (v2_process w l).2 = None /\ processed_files (v2_process w l).1 = map p_name l /\
  written (v2_process w l).1 = flat_map (fun f => v2_outputs f (raw f)) l.
Proof.
  intros Hr Hw. induction l as [|f l IH]; [done|]. simpl.
  rewrite Hr by apply list_elem_of_here. rewrite !Hw.
  destruct IH as (IH1 & IH2 & IH3); [intros g Hg; apply Hr; by apply list_elem_of_further|].
  destruct (v2_process w l) as [tr r]. simpl in *. by rewrite IH1, IH2, IH3.
Qed.

(** X3: when every input file can be read and every write succeeds,
    [conversation_to_context_v2.main] processes the files in order and, for
    each, writes the messages table to [<stem>_parsed.csv] and then the context
    table to [context_<stem>_parsed.csv]; the run ends with status 0. *)
Theorem v2_main_writes_tables (w : v2_world) (entries : list (path * bool)) (raw : path -> pystr) :
  (forall f, f ∈ get_files_names entries -> v_read_text w f = inr (raw f)) ->
  (forall p tbl, v_write_csv w p tbl = None) ->
  exists tr, v2_main w entries = (tr, Exit 0) /\
    processed_files tr = map p_name (get_files_names entries) /\
    written tr = flat_map (fun f => v2_outputs f (raw f)) (get_files_names entries).
Proof.
  intros Hr Hw. unfold v2_main.
  destruct (v2_process_ok w raw _ Hr Hw) as (H1 & H2 & H3).
  destruct (v2_process w (get_files_names entries)) as [tr r]. simpl in *. subst r.
  by exists tr.
Qed.

Lemma v2_main_writes_tables_witness :
  (forall f, f ∈ get_files_names [(txt_path "a", true); (txt_path "b", false)] ->
     v_read_text all_ok_world f = inr scenario) /\
  (forall p tbl, v_write_csv all_ok_world p tbl = None) /\
  exists tr, v2_main all_ok_world [(txt_path "a", true); (txt_path "b", false)] = (tr, Exit 0) /\
    processed_files tr = map p_name (get_files_names [(txt_path "a", true); (txt_path "b", false)]) /\
    written tr = flat_map (fun f => v2_outputs f scenario)
                   (get_files_names [(txt_path "a", true); (txt_path "b", false)]).
Proof.
  assert (H1 : forall f, f ∈ get_files_names [(txt_path "a", true); (txt_path "b", false)] ->
                 v_read_text all_ok_world f = inr scenario) by (intros; reflexivity).
  assert (H2 : forall p tbl, v_write_csv all_ok_world p tbl = None) by reflexivity.
  split; [exact H1|]. split; [exact H2|].
  exact (v2_main_writes_tables all_ok_world _ (fun _ => scenario) H1 H2).
Defined.




(** ** [main] of [send_context_to_claude.py] *)

Lemma process_csv_files_dry w args all todo :
  a_dry_run args = true ->
  process_csv_files w args all todo = (flat_map (dry_run_events w) todo, None).
Proof.
  intros Hd. induction todo as [|f rest IH]; [done|]. simpl. rewrite IH.
  unfold dry_run_events. destruct (read_csv_file w f); [done|]. by rewrite Hd.
Qed.

(** X5: with [--dry-run], once the folder exists and holds CSV files,
    [main] sends no request, calls no printing of replies and never sleeps:
    for each file it reports the read error or prints the payload, and it
    returns 0. *)
Theorem send_main_dry_run (w : send_world) (args : send_args) (csv_files : list pystr) :
  a_dry_run args = true -> csv_files <> [] ->
  send_main w args true csv_files = (flat_map (dry_run_events w) csv_files, Exit 0).
Proof.
  intros Hd Hne. unfold send_main. destruct csv_files as [|f rest]; [done|].
  simpl negb. cbv iota. by rewrite process_csv_files_dry.
Qed.

Lemma send_main_dry_run_witness :
  a_dry_run (sample_args true) = true /\ [s "a.csv"; s "b.csv"] <> [] /\
  send_main (sample_send_world (fun _ => Some (s "k"))) (sample_args true) true [s "a.csv"; s "b.csv"] =
    (flat_map (dry_run_events (sample_send_world (fun _ => Some (s "k")))) [s "a.csv"; s "b.csv"], Exit 0).
Proof.
  split; [reflexivity|]. split; [discriminate|].
  apply send_main_dry_run; [reflexivity|discriminate].
Defined.

Lemma process_csv_files_no_key w args all todo :
  (w_getenv w (s "AT_KEY") = None \/ w_getenv w (s "AT_KEY") = Some []) ->
  a_dry_run args = false ->
  process_csv_files w args all todo = (flat_map (no_key_events w) todo, None).
Proof.
  intros Hk Hd. induction todo as [|f rest IH]; [done|]. simpl. rewrite IH.
  unfold no_key_events. destruct (read_csv_file w f); [done|]. rewrite Hd.
  unfold call_anthropic. by destruct Hk as [-> | ->].
Qed.

(** X6: when [AT_KEY] is unset or empty, [main] (without [--dry-run], the
    folder holding CSV files) sends no request at all: every file is reported,
    with its read error or with the missing-key error, and [main] returns 0. *)
Theorem send_main_without_key (w : send_world) (args : send_args) (csv_files : list pystr) :
  (w_getenv w (s "AT_KEY") = None \/ w_getenv w (s "AT_KEY") = Some []) ->
  a_dry_run args = false -> csv_files <> [] ->
  send_main w args true csv_files = (flat_map (no_key_events w) csv_files, Exit 0).
Proof.
  intros Hk Hd Hne. unfold send_main. destruct csv_files as [|f rest]; [done|].
  simpl negb. cbv iota. by rewrite process_csv_files_no_key.
Qed.

Lemma send_main_without_key_witness :
  (w_getenv (sample_send_world (fun _ => None)) (s "AT_KEY") = None \/
   w_getenv (sample_send_world (fun _ => None)) (s "AT_KEY") = Some []) /\
  a_dry_run (sample_args false) = false /\ [s "a.csv"] <> [] /\
  send_main (sample_send_world (fun _ => None)) (sample_args false) true [s "a.csv"] =
    (flat_map (no_key_events (sample_send_world (fun _ => None))) [s "a.csv"], Exit 0).
Proof.
  assert (Hk : w_getenv (sample_send_world (fun _ => None)) (s "AT_KEY") = None \/
               w_getenv (sample_send_world (fun _ => None)) (s "AT_KEY") = Some []) by (left; reflexivity).
  split; [exact Hk|]. split; [reflexivity|]. split; [discriminate|].
  apply send_main_without_key; [exact Hk|reflexivity|discriminate].
Defined.

Lemma sent_requests_app a b : sent_requests (a ++ b) = sent_requests a ++ sent_requests b.
Proof. induction a as [|[] a IH]; simpl; by rewrite ?IH. Qed.

Lemma sent_requests_sent l : sent_requests (map Sent l) = l.
Proof. induction l as [|r l IH]; simpl; by rewrite ?IH. Qed.

Lemma claude_then_gpt_app a b : claude_then_gpt a -> claude_then_gpt b -> claude_then_gpt (a ++ b).
Proof. induction 1; intros Hb; simpl; [exact Hb|apply ctg_claude; auto|apply ctg_both; auto]. Qed.

Lemma call_anthropic_sent getenv post payload :
  ((call_anthropic getenv post payload).1 = [] /\ exists e, (call_anthropic getenv post payload).2 = inl e) \/
  exists q, (call_anthropic getenv post payload).1 = [q] /\ req_url q = ANTHROPIC_API_URL.
Proof. unfold call_anthropic. destruct (getenv _) as [[|c k]|]; simpl; eauto. Qed.

Lemma call_gpt_sent getenv post messages system model max_tokens temperature :
  (call_gpt getenv post messages system model max_tokens temperature).1 = [] \/
  exists q, (call_gpt getenv post messages system model max_tokens temperature).1 = [q] /\
            req_url q = OPENAI_API_URL.
Proof. unfold call_gpt. destruct (getenv _) as [[|c k]|]; simpl; eauto. Qed.

(** The requests one file adds: none, one to Claude, or one to Claude and then
    one to GPT. *)
Lemma chunk_claude_then_gpt (l : list request) rest :
  (l = [] \/ (exists q, l = [q] /\ req_url q = ANTHROPIC_API_URL) \/
   (exists q1 q2, l = [q1; q2] /\ req_url q1 = ANTHROPIC_API_URL /\ req_url q2 = OPENAI_API_URL)) ->
  claude_then_gpt (map req_url rest) -> claude_then_gpt (map req_url (l ++ rest)) /\ (length l <= 2)%nat.
Proof.
  intros [->|[(q & -> & Hq)|(q1 & q2 & -> & H1 & H2)]] Hr; simpl.
  - split; [done|lia].
  - rewrite Hq. split; [by constructor|lia].
  - rewrite H1, H2. split; [by constructor|lia].
Qed.

Lemma process_csv_files_requests w args all todo :
  claude_then_gpt (map req_url (sent_requests (process_csv_files w args all todo).1)) /\
  (length (sent_requests (process_csv_files w args all todo).1) <= 2 * length todo)%nat.
Proof.
  induction todo as [|f rest IH]; simpl; [split; [constructor|lia]|].
  destruct (process_csv_files w args all rest) as [tr r]. simpl in IH. destruct IH as [IH1 IH2].
  destruct (read_csv_file w f); [simpl; split; [done|lia]|].
  destruct (a_dry_run args); [simpl; split; [done|lia]|].
  pose proof (call_anthropic_sent (w_getenv w) (w_post w)
    (build_payload l (a_system args) (a_model args) (a_max_tokens args) (a_temperature args))) as Ha.
  destruct (call_anthropic _ _ _) as [sent1 [e1|cd]]; simpl in Ha.
  { simpl. rewrite !sent_requests_app, sent_requests_sent. simpl. rewrite app_nil_r.
    destruct (chunk_claude_then_gpt sent1 (sent_requests tr)) as [H1 H2]; [|done|].
    - destruct Ha as [[-> _]|(q & -> & Hq)]; [by left|right; left; eauto].
    - rewrite length_app. split; [done|lia]. }
  destruct Ha as [[_ [e' ?]]|(q & -> & Hq)]; [discriminate|].
  pose proof (call_gpt_sent (w_getenv w) (w_post w) l (a_system args) (s "gpt-4o")
    (a_max_tokens args) (a_temperature args)) as Hg.
  assert (Hc : forall sent2, sent2 = [] \/ (exists q2, sent2 = [q2] /\ req_url q2 = OPENAI_API_URL) ->
            forall rest', claude_then_gpt (map req_url rest') ->
            claude_then_gpt (map req_url (([q] ++ sent2) ++ rest')) /\ (length ([q] ++ sent2) <= 2)%nat).
  { intros sent2 Hs rest' Hr. apply chunk_claude_then_gpt; [|done].
    destruct Hs as [->|(q2 & -> & Hq2)]; right; [left; eauto|right; eauto]. }
  destruct (call_gpt _ _ _ _ _ _ _) as [sent2 [e2|gd]]; simpl in Hg.
  { simpl. rewrite !sent_requests_app, sent_requests_sent. simpl. rewrite app_nil_r.
    destruct (Hc sent2 Hg (sent_requests tr) IH1) as [H1 H2].
    rewrite <- app_assoc in H1. split; [done|]. rewrite length_app in *. simpl in *. lia. }
  destruct (pretty_print_response w f cd gd).
  - simpl. rewrite sent_requests_sent.
    destruct (Hc sent2 Hg [] ctg_nil) as [H1 H2]. rewrite app_nil_r in H1.
    split; [done|]. rewrite length_app in *. simpl in *. lia.
  - simpl. rewrite !sent_requests_app, sent_requests_sent.
    replace (sent_requests (Replied f :: (if bool_decide (last all = Some f) then [] else [Slept])))
      with (@nil request) by (by case_bool_decide).
    rewrite app_nil_r.
    destruct (Hc sent2 Hg (sent_requests tr) IH1) as [H1 H2].
    simpl in H1. split; [done|]. rewrite length_app in *. simpl in *. lia.
Qed.

(** X7: in every run of [send_context_to_claude.main], each request to the GPT
    endpoint directly follows a request to the Claude endpoint (GPT is only
    called once Claude has answered for the same file), and the run sends at
    most two requests per CSV file. *)
Theorem send_main_requests (w : send_world) (args : send_args) (folder_exists : bool)
    (csv_files : list pystr) :
  claude_then_gpt (map req_url (sent_requests (send_main w args folder_exists csv_files).1)) /\
  (length (sent_requests (send_main w args folder_exists csv_files).1) <= 2 * length csv_files)%nat.
Proof.
  unfold send_main. destruct folder_exists; [|simpl; split; [constructor|lia]].
  destruct csv_files as [|f rest]; [simpl; split; [constructor|lia]|].
  pose proof (process_csv_files_requests w args (f :: rest) (f :: rest)) as H.
  destruct (process_csv_files w args (f :: rest) (f :: rest)) as [tr r]. exact H.
Qed.

Lemma sleeps_app a b : sleeps (a ++ b) = (sleeps a + sleeps b)%nat.
Proof. induction a as [|[] a IH]; simpl; rewrite ?IH; lia. Qed.

Lemma sleeps_sent l : sleeps (map Sent l) = 0%nat.
Proof. by induction l. Qed.

Lemma process_csv_files_sleeps w args all todo :
  (sleeps (process_csv_files w args all todo).1 <=
   length (filter (fun f => last all <> Some f) todo))%nat.
Proof.
  induction todo as [|f rest IH]; simpl; [lia|].
  destruct (process_csv_files w args all rest) as [tr r]. simpl in IH.
  rewrite filter_cons.
  assert (Hf : (length (filter (fun f => last all <> Some f) rest) <=
                length (if decide (last all <> Some f) then f :: filter (fun f => last all <> Some f) rest
                        else filter (fun f => last all <> Some f) rest))%nat)
    by (case_decide; simpl; lia).
  destruct (read_csv_file w f); [simpl; lia|].
  destruct (a_dry_run args); [simpl; lia|].
  destruct (call_anthropic _ _ _) as [sent1 [e1|cd]].
  { simpl. rewrite !sleeps_app, sleeps_sent. simpl. lia. }
  destruct (call_gpt _ _ _ _ _ _ _) as [sent2 [e2|gd]].
  { simpl. rewrite !sleeps_app, sleeps_sent. simpl. lia. }
  destruct (pretty_print_response w f cd gd); simpl; rewrite ?sleeps_app, ?sleeps_sent; [lia|].
  simpl. case_bool_decide as Hl; case_decide as Hd; simpl; try lia; congruence.
Qed.

(** X8: [send_context_to_claude.main] sleeps at most once per CSV file but the
    last: never more than [n - 1] times for [n] files (the sleep follows a file
    whose replies were printed, and never the last file of the list). *)
Theorem send_main_sleeps (w : send_world) (args : send_args) (folder_exists : bool)
    (csv_files : list pystr) :
  (sleeps (send_main w args folder_exists csv_files).1 <= length csv_files - 1)%nat.
Proof.
  unfold send_main. destruct folder_exists; [|simpl; lia].
  destruct csv_files as [|f rest]; [simpl; lia|].
  pose proof (process_csv_files_sleeps w args (f :: rest) (f :: rest)) as H.
  destruct (last (f :: rest)) as [x|] eqn:Hx; [|apply last_None in Hx; discriminate].
  assert (Hin : x ∈ f :: rest) by (by apply last_Some_elem_of).
  pose proof (length_filter_lt (fun g => Some x <> Some g) (f :: rest) x Hin) as Hlt.
  destruct (process_csv_files w args (f :: rest) (f :: rest)) as [tr r].
  cbn [fst] in H |- *. assert (Hn : ~ (Some x <> Some x)) by tauto. specialize (Hlt Hn).
  simpl negb. cbv iota. cbn [fst]. simpl length in *. lia.
Qed.

(** ** Reading tables back with [read_messages_from_csv] *)

Lemma fold_insert_none_notin (k : pystr) (ks : list pystr) (d : csv_row) :
  k ∉ ks -> fold_left (fun d k' => <[k' := None]> d) ks d !! k = d !! k.
Proof.
  revert d. induction ks as [|k' ks IH]; intros d Hn; simpl; [done|].
  apply not_elem_of_cons in Hn as [Hne Hn]. rewrite IH by done.
  by rewrite lookup_insert_ne.
Qed.

Lemma fold_insert_zip_notin (k : pystr) (fns row : list pystr) (d : csv_row) :
  k ∉ fns -> fold_left (fun d kv => <[kv.1 := Some kv.2]> d) (zip fns row) d !! k = d !! k.
Proof.
  revert row d. induction fns as [|f fns IH]; intros row d Hn; [done|].
  destruct row as [|v row]; [done|]. simpl.
  apply not_elem_of_cons in Hn as [Hne Hn]. rewrite IH by done.
  by rewrite lookup_insert_ne.
Qed.

Lemma dict_row_notin k fns row : k ∉ fns -> dict_row fns row !! k = None.
Proof.
  intros Hn. unfold dict_row. rewrite fold_insert_none_notin.
  - rewrite fold_insert_zip_notin by done. apply lookup_empty.
  - intros Hd. apply Hn. rewrite <- (take_drop (length row) fns). set_solver.
Qed.

Lemma read_rows_no_content rows :
  Forall (fun row => row !! s "content" = None) rows -> read_rows rows = [].
Proof.
  induction 1 as [|row rows Hrow _ IH]; [done|]. simpl.
  assert (Hc : row_get row (s "content") = []) by (unfold row_get; by rewrite Hrow).
  rewrite Hc. simpl. done.
Qed.

Lemma read_rows_no_role rows :
  Forall (fun row => row !! s "role" = None) rows ->
  Forall (fun m => role m = s "user") (read_rows rows).
Proof.
  induction 1 as [|row rows Hrow _ IH]; simpl; [constructor|].
  case_bool_decide; [done|]. constructor; [|done]. simpl.
  assert (Hr : row_get row (s "role") = []) by (unfold row_get; by rewrite Hrow).
  rewrite Hr. reflexivity.
Qed.

(** X9: [read_messages_from_csv] checks the header case-insensitively and
    ignoring surrounding spaces, but reads every row under the exact keys
    ["role"] and ["content"]: when no column is named exactly "content" it
    raises [ValueError] (even for a header "Content", which passes the check),
    and when none is named exactly "role" every message read gets the role
    "user". An empty file raises [ValueError]. *)
Theorem read_messages_exact_keys (hdr : list pystr) (rows : list (list pystr)) :
  (s "content" ∉ hdr -> read_messages_from_csv (dict_reader_of_table (hdr :: rows)) = inl ValueError) /\
  (s "role" ∉ hdr -> forall ms, read_messages_from_csv (dict_reader_of_table (hdr :: rows)) = inr ms ->
     Forall (fun m => role m = s "user") ms) /\
  read_messages_from_csv (dict_reader_of_table []) = inl ValueError.
Proof.
  split; [|split; [|reflexivity]].
  - intros Hn. unfold read_messages_from_csv. simpl.
    destruct (has_expected_cols (Some hdr)); [|done].
    rewrite read_rows_no_content; [done|].
    apply Forall_forall. intros row (r & -> & _)%list_elem_of_fmap. by apply dict_row_notin.
  - intros Hn ms. unfold read_messages_from_csv. simpl.
    destruct (has_expected_cols (Some hdr)); [|done].
    case_bool_decide; [done|]. intros [= <-].
    apply read_rows_no_role.
    apply Forall_forall. intros row (r & -> & _)%list_elem_of_fmap. by apply dict_row_notin.
Qed.

Lemma dict_row_role_content a b :
  row_get (dict_row [s "role"; s "content"] [a; b]) (s "role") = a /\
  row_get (dict_row [s "role"; s "content"] [a; b]) (s "content") = b.
Proof.
  assert (Hne : s "content" <> s "role") by (vm_compute; discriminate).
  unfold dict_row, row_get. cbn [zip zip_with fold_left drop length fst snd].
  rewrite lookup_insert_ne by done. rewrite !lookup_insert_eq. done.
Qed.

Lemma normalised_role r :
  r = s "user" \/ r = s "assistant" ->
  (if bool_decide (py_lower (strip r) = s "assistant") then s "assistant" else s "user") = r.
Proof. intros [-> | ->]; vm_compute; reflexivity. Qed.

Lemma read_rows_context_table ctx :
  Forall (fun c => (role c = s "user" \/ role c = s "assistant") /\ strip (content c) = content c) ctx ->
  read_rows (map (dict_row [s "role"; s "content"])
               (filter (fun r => r <> []) (map context_row ctx))) =
  filter (fun c => content c <> []) ctx.
Proof.
  induction 1 as [|c ctx [Hr Hs] _ IH]; [done|].
  cbn [map]. unfold context_row at 1. rewrite filter_cons, decide_True by discriminate. rewrite filter_cons.
  cbn [map read_rows]. destruct (dict_row_role_content (role c) (content c)) as [E1 E2].
  rewrite E1, E2, Hs, normalised_role by done. rewrite IH.
  case_bool_decide as Hc; case_decide as Hd; try done. by destruct c.
Qed.

Lemma parse_to_context_clean text :
  Forall (fun c => (role c = s "user" \/ role c = s "assistant") /\ strip (content c) = content c)
    (parse_to_context (parse_chat text)).
Proof.
  unfold parse_to_context. apply Forall_fmap.
  eapply Forall_impl; [apply parse_loop_decompose|].
  intros p (rest & body & E). simpl. split.
  - unfold dict_get, ASSISTANT_REFERENCE_DICT.
    destruct (sender p) as [k|]; [|by left].
    destruct (decide (k = MAVI_MOSAIC)) as [->|Hne].
    + rewrite lookup_singleton_eq. by right.
    + rewrite lookup_singleton_ne by done. by left.
  - destruct (decompose_clean rest body) as (_ & H & _). rewrite <- E in H. exact H.
Qed.

Lemma digit_not_cr c : is_digit c = true -> CR <> c.
Proof. intros H <-. vm_compute in H. discriminate. Qed.

Lemma date_shaped_no_cr d : date_shaped d = true -> CR ∉ d.
Proof.
  destruct d as [|d1 [|d2 [|sl1 [|d3 [|d4 [|sl2 [|y1 [|y2 [|y3 [|y4 [|? ?]]]]]]]]]]];
    try discriminate.
  unfold date_shaped. intros H.
  apply andb_prop in H as [H Hs2]. apply andb_prop in H as [H Hs1].
  apply N.eqb_eq in Hs1, Hs2. subst. simpl in H.
  repeat match goal with H : _ && _ = true |- _ => apply andb_prop in H as [? H] end.
  rewrite !not_elem_of_cons.
  repeat split; try (apply digit_not_cr; assumption); try discriminate; apply not_elem_of_nil.
Qed.

Lemma time_shaped_no_cr d : time_shaped d = true -> CR ∉ d.
Proof.
  destruct d as [|h1 [|h2 [|col [|n1 [|n2 [|? ?]]]]]]; try discriminate.
  unfold time_shaped. intros H.
  apply andb_prop in H as [H Hc]. apply N.eqb_eq in Hc. subst. simpl in H.
  repeat match goal with H : _ && _ = true |- _ => apply andb_prop in H as [? H] end.
  rewrite !not_elem_of_cons.
  repeat split; try (apply digit_not_cr; assumption); try discriminate; apply not_elem_of_nil.
Qed.

(** No field of the messages table holds [\r]. *)
Lemma message_rows_no_cr text :
  Forall (fun p => Forall (fun x => CR ∉ x) (message_row p)) (parse_chat text).
Proof.
  pose proof (parse_loop_dates text (finditer text)
                (fun d t => date_shaped d = true /\ time_shaped t = true) (scan_groups _ _ _)) as Hd.
  pose proof (parse_loop_decompose text (finditer text)) as Hm.
  fold (parse_chat text) in Hd, Hm.
  rewrite Forall_forall in Hd, Hm |- *. intros p Hp.
  destruct (Hd p Hp) as [H1 H2]. destruct (Hm p Hp) as (rest & body & E).
  destruct (decompose_clean rest body) as (H3 & _ & H4). rewrite <- E in H3, H4. simpl in H3, H4.
  unfold message_row. repeat constructor.
  - by apply date_shaped_no_cr.
  - by apply time_shaped_no_cr.
  - destruct (sender p) as [y|]; simpl; [by apply H4|apply not_elem_of_nil].
  - exact H3.
Qed.

Lemma message_rows_safe text :
  Forall (fun p => Forall (fun x => (N.of_nat (length x) <= FIELD_LIMIT)%N) (message_row p)) (parse_chat text) ->
  Forall (fun p => Forall csv_safe (message_row p)) (parse_chat text).
Proof.
  intros Hl. pose proof (message_rows_no_cr text) as Hc.
  rewrite Forall_forall in Hl, Hc |- *. intros p Hp.
  specialize (Hl p Hp). specialize (Hc p Hp). rewrite Forall_forall in Hl, Hc |- *.
  intros x Hx. split; auto.
Qed.

Lemma context_rows_safe text :
  Forall (fun p => Forall csv_safe (message_row p)) (parse_chat text) ->
  Forall csv_safe (EXPECTED_CONTEXT) /\
  Forall (fun c => Forall csv_safe (context_row c)) (parse_to_context (parse_chat text)).
Proof.
  intros Hs. split; [apply expected_context_safe|].
  pose proof (parse_to_context_clean text) as Hr.
  unfold parse_to_context in *. apply Forall_fmap. apply Forall_fmap in Hr.
  rewrite Forall_forall in Hs, Hr |- *. intros p Hp.
  destruct (Hr p Hp) as [Hrole _]. specialize (Hs p Hp).
  unfold message_row in Hs. apply Forall_cons in Hs as (_ & Hs).
  apply Forall_cons in Hs as (_ & Hs). apply Forall_cons in Hs as (_ & Hs).
  apply Forall_cons in Hs as (Hm & _).
  unfold context_row. simpl in *. constructor; [|by constructor].
  destruct Hrole as [-> | ->]; apply (bool_decide_unpack _); vm_compute; exact I.
Qed.

(** X10: the context table [conversation_to_context_v2.py] writes for a
    transcript, read back with [csv.DictReader] by [read_messages_from_csv]
    of [send_context_to_claude.py], gives exactly the context records whose
    content is not empty, in order and with their roles; when every content
    is empty it raises [ValueError]. The messages table written beside it is
    refused with [ValueError]: it has no role and content columns. Both hold
    as long as no field is longer than the field limit of the [csv] module. *)
Theorem context_table_read_back (text : pystr) :
  Forall (fun p => Forall (fun x => (N.of_nat (length x) <= FIELD_LIMIT)%N) (message_row p))
    (parse_chat text) ->
  (exists tbl, csv_read (write_context_to_csv (parse_to_context (parse_chat text))) = Some tbl /\
     read_messages_from_csv (dict_reader_of_table tbl) =
       (if bool_decide (filter (fun c => content c <> []) (parse_to_context (parse_chat text)) = [])
        then inl ValueError
        else inr (filter (fun c => content c <> []) (parse_to_context (parse_chat text))))) /\
  (exists tbl, csv_read (write_messages_to_csv (parse_chat text)) = Some tbl /\
     read_messages_from_csv (dict_reader_of_table tbl) = inl ValueError).
Proof.
  intros Hl. pose proof (message_rows_safe text Hl) as Hs.
  destruct (context_rows_safe text Hs) as [Hh Hc].
  split.
  - eexists. rewrite write_context_rows, csv_read_writerows.
    2:{ constructor; [done|]. by apply Forall_fmap. }
    split; [reflexivity|].
    unfold read_messages_from_csv, dict_reader_of_table. cbn [fieldnames reader_rows].
    replace (has_expected_cols (Some EXPECTED_CONTEXT)) with true by (vm_compute; reflexivity).
    unfold EXPECTED_CONTEXT. rewrite read_rows_context_table by apply parse_to_context_clean.
    reflexivity.
  - eexists. rewrite write_messages_rows, csv_read_writerows.
    2:{ constructor; [apply expected_messages_safe|]. by apply Forall_fmap. }
    split; [reflexivity|].
    unfold read_messages_from_csv, dict_reader_of_table. cbn [fieldnames].
    replace (has_expected_cols (Some EXPECTED_MESSAGES)) with false by (vm_compute; reflexivity).
    reflexivity.
Qed.

Lemma context_table_read_back_witness :
  Forall (fun p => Forall (fun x => (N.of_nat (length x) <= FIELD_LIMIT)%N) (message_row p))
    (parse_chat scenario) /\
  (exists tbl, csv_read (write_context_to_csv (parse_to_context (parse_chat scenario))) = Some tbl /\
     read_messages_from_csv (dict_reader_of_table tbl) =
       (if bool_decide (filter (fun c => content c <> []) (parse_to_context (parse_chat scenario)) = [])
        then inl ValueError
        else inr (filter (fun c => content c <> []) (parse_to_context (parse_chat scenario))))) /\
  (exists tbl, csv_read (write_messages_to_csv (parse_chat scenario)) = Some tbl /\
     read_messages_from_csv (dict_reader_of_table tbl) = inl ValueError).
Proof.
  assert (H : Forall (fun p => Forall (fun x => (N.of_nat (length x) <= FIELD_LIMIT)%N) (message_row p))
                (parse_chat scenario)) by (apply (bool_decide_unpack _); vm_compute; exact I).
  split; [exact H|]. exact (context_table_read_back scenario H).
Defined.

(** ** What the requests of a run carry *)

Lemma call_anthropic_request getenv post payload q :
  q ∈ (call_anthropic getenv post payload).1 ->
  exists k, getenv (s "AT_KEY") = Some k /\ k <> [] /\ q = claude_request k payload.
Proof.
  unfold call_anthropic. destruct (getenv _) as [[|c k]|]; simpl; try (intros Hq; by apply not_elem_of_nil in Hq).
  intros ->%list_elem_of_singleton. eexists; split; [reflexivity|]. split; [discriminate|reflexivity].
Qed.

Lemma call_gpt_request getenv post args ms q :
  q ∈ (call_gpt getenv post ms (a_system args) (s "gpt-4o") (a_max_tokens args) (a_temperature args)).1 ->
  exists k, getenv (s "OAI_KEY") = Some k /\ k <> [] /\ q = gpt_request k args ms.
Proof.
  unfold call_gpt. destruct (getenv _) as [[|c k]|]; simpl; try (intros Hq; by apply not_elem_of_nil in Hq).
  intros ->%list_elem_of_singleton. eexists; split; [reflexivity|]. split; [discriminate|reflexivity].
Qed.

Lemma process_csv_files_request_for w args all todo q :
  q ∈ sent_requests (process_csv_files w args all todo).1 -> exists f, f ∈ todo /\ request_for w args f q.
Proof.
  induction todo as [|f rest IH]; simpl; [intros Hq; by apply not_elem_of_nil in Hq|].
  assert (IH' : q ∈ sent_requests (process_csv_files w args all rest).1 ->
                exists g, g ∈ f :: rest /\ request_for w args g q)
    by (intros Hq; destruct (IH Hq) as (g & Hg & Hr); exists g; split; [set_solver|done]).
  clear IH. destruct (process_csv_files w args all rest) as [tr r]. simpl in IH'.
  unfold request_for. destruct (read_csv_file w f) as [e|ms] eqn:Er; [exact IH'|].
  destruct (a_dry_run args); [exact IH'|].
  pose proof (call_anthropic_request (w_getenv w) (w_post w)
    (build_payload ms (a_system args) (a_model args) (a_max_tokens args) (a_temperature args))) as Ha.
  pose proof (call_gpt_request (w_getenv w) (w_post w) args ms) as Hg.
  destruct (call_anthropic _ _ _) as [sent1 res1]. simpl in Ha.
  assert (Hs1 : q ∈ sent1 -> exists g, g ∈ f :: rest /\ request_for w args g q).
  { intros Hq. exists f. split; [set_solver|]. exists ms. split; [done|]. left. by apply Ha. }
  unfold request_for in IH'. destruct res1 as [e1|cd].
  { simpl. rewrite !sent_requests_app, sent_requests_sent. simpl.
    rewrite app_nil_r. intros [Hq|Hq]%elem_of_app; [by apply Hs1|by apply IH']. }
  destruct (call_gpt _ _ _ _ _ _ _) as [sent2 res2]. simpl in Hg.
  assert (Hs2 : q ∈ sent2 -> exists g, g ∈ f :: rest /\ request_for w args g q).
  { intros Hq. exists f. split; [set_solver|]. exists ms. split; [done|]. right. by apply Hg. }
  destruct res2 as [e2|gd].
  { simpl. rewrite !sent_requests_app, sent_requests_sent. simpl.
    rewrite app_nil_r. intros [[Hq|Hq]%elem_of_app|Hq]%elem_of_app; auto. }
  destruct (pretty_print_response w f cd gd).
  - simpl. rewrite sent_requests_sent. intros [Hq|Hq]%elem_of_app; auto.
  - simpl. rewrite !sent_requests_app, sent_requests_sent.
    replace (sent_requests (Replied f :: (if bool_decide (last all = Some f) then [] else [Slept])))
      with (@nil request) by (by case_bool_decide).
    rewrite app_nil_r. intros [[Hq|Hq]%elem_of_app|Hq]%elem_of_app; auto.
Qed.

(** X11: every request a run of [send_context_to_claude.main] sends carries
    the messages read from one of its CSV files: either the Claude request,
    with the [AT_KEY] key and the payload of [build_payload] (the [--system],
    [--model], [--max-tokens] and [--temperature] arguments), or the GPT
    request, with the [OAI_KEY] key, the model ["gpt-4o"] whatever [--model]
    says, and the system prompt as a first message followed by the same
    messages. *)
Theorem send_main_request_contents (w : send_world) (args : send_args) (folder_exists : bool)
    (csv_files : list pystr) :
  Forall (fun q => exists f, f ∈ csv_files /\ request_for w args f q)
    (sent_requests (send_main w args folder_exists csv_files).1).
Proof.
  apply Forall_forall. intros q. unfold send_main.
  destruct folder_exists; [|simpl; intros Hq; by apply not_elem_of_nil in Hq].
  destruct csv_files as [|f rest]; [simpl; intros Hq; by apply not_elem_of_nil in Hq|].
  pose proof (process_csv_files_request_for w args (f :: rest) (f :: rest) q) as H.
  destruct (process_csv_files w args (f :: rest) (f :: rest)) as [tr r]. exact H.
Qed.

Lemma join_truthy_strs (xs : list pystr) :
  join_truthy (map JStr xs) = inr (filter (fun x => x <> []) xs).
Proof.
  induction xs as [|x xs IH]; [done|].
  simpl. rewrite IH, filter_cons.
  destruct x as [|c x]; reflexivity.
Qed.

(** X12: when Claude's answer is a dict whose ["content"] is a list of blocks
    and the text blocks among them carry the strings [xs] (blocks of any other
    type are skipped), [pretty_print_response] takes as Claude's reply the
    non-empty strings of [xs] joined by newlines, without raising. *)
Theorem claude_reply_text (m : list (pystr * json)) (blocks : list json) (xs : list pystr) :
  obj_get m (s "content") = Some (JArr blocks) ->
  omap text_chunk blocks = map JStr xs ->
  claude_text (JObj m) = inr (join NL (filter (fun x => x <> []) xs)).
Proof.
  intros Hc Hx. unfold claude_text, py_get. rewrite Hc. simpl.
  rewrite Hx, join_truthy_strs. done.
Qed.

Lemma claude_reply_text_witness :
  let m := [(s "id", JStr (s "msg_1"));
            (s "content", JArr [JObj [(s "type", JStr (s "text")); (s "text", JStr (s "Hi"))];
                                JObj [(s "type", JStr (s "tool_use")); (s "name", JStr (s "f"))];
                                JObj [(s "type", JStr (s "text")); (s "text", JStr [])];
                                JObj [(s "type", JStr (s "text")); (s "text", JStr (s "there"))]])] in
  claude_text (JObj m) = inr (s "Hi" ++ NL ++ s "there").
Proof.
  intros m.
  refine (eq_trans (claude_reply_text m _ [s "Hi"; []; s "there"] _ _) _);
    [vm_compute; reflexivity | vm_compute; reflexivity | vm_compute; reflexivity].
Defined.

(** X13: once Claude's reply [ct] is extracted, a GPT answer with no
    ["choices"] key, or an empty list of choices, gets the reply
    "(no text content)"; when its first choice is a dict whose ["message"] is
    a dict with a string ["content"] [x], the two printed replies are [ct] and
    [x] (stripped, or "(no text content)" when blank); when that ["content"] is
    [null] or any other non-string, Claude's reply is printed and then
    [AttributeError] is raised. *)
Theorem gpt_reply_cases (cd : json) (ct : pystr) (m : list (pystr * json)) :
  claude_text cd = inr ct ->
  ((obj_get m (s "choices") = None \/ obj_get m (s "choices") = Some (JArr [])) ->
   reply_prints cd (JObj m) = ([shown ct; s "(no text content)"], None)) /\
  (forall c0 rest msg v,
     obj_get m (s "choices") = Some (JArr (JObj c0 :: rest)) ->
     obj_get c0 (s "message") = Some (JObj msg) ->
     obj_get msg (s "content") = Some v ->
     reply_prints cd (JObj m) =
       match v with
       | JStr x => ([shown ct; shown x], None)
       | _ => ([shown ct], Some AttributeError)
       end).
Proof.
  intros Hct. unfold reply_prints. rewrite Hct. split.
  - intros [Hn | Hn]; unfold gpt_text, py_get; rewrite Hn; reflexivity.
  - intros c0 rest msg v Hch Hmsg Hv.
    unfold gpt_text, py_get. rewrite Hch. simpl. rewrite Hmsg, Hv.
    destruct v; reflexivity.
Qed.

Lemma gpt_reply_cases_witness :
  reply_prints (JObj [(s "content", JArr [JObj [(s "type", JStr (s "text")); (s "text", JStr (s " ok "))]])])
               (JObj [(s "choices", JArr [JObj [(s "message", JObj [(s "role", JStr (s "assistant")); (s "content", JNull)])]])])
  = ([s "ok"], Some AttributeError).
Proof.
  refine (eq_trans (proj2 (gpt_reply_cases _ (s " ok ") _ _) _ [] _ JNull _ _ _) _);
    vm_compute; reflexivity.
Defined.
